(** * Citation markers in chat answers: the [MarkdownContent] component

    A shallow embedding of
    [ragflow/web/src/pages/chat/markdown-content/index.tsx]: the text handed
    to the markdown renderer ([contentWithCursor]), the tree pass that wraps
    text nodes ([rehypeWrapReference]), the lookup of a cited chunk
    ([getReferenceInfo]), the popover payload ([getPopoverContent]), the click
    handler ([handleDocumentButtonClick]) and the replacement of markers by
    citation nodes ([renderReference]).

    Texts are [string]s, read as the UTF-8 bytes of the JavaScript string.
    JavaScript's [undefined] is [None]; [a?.b] is a bind in [option];
    a value used as a condition goes through [truthy].

    The markdown parser, [rehypeKatex] and [rehypeRaw] are libraries.  The
    model starts from the tree the parser hands to [rehypeWrapReference],
    the first of the three rehype plugins; the two that follow are taken
    with the other collaborators of the component, as functions on trees,
    and [Markdown] draws the tree they return.  React keys and class names
    are left out. *)

From stdpp Require Import base option list strings gmap.
From Stdlib Require Import Ascii.

(** ** The reference table (interfaces/database/chat) *)

Record IReferenceChunk := {
  id : string;
  content : option string;
  document_id : string;
  image_id : option string;
  doc_type : option string
}.

Record Docagg := {
  doc_id : string;
  doc_name : string;
  url : option string
}.

Record IReference := {
  chunks : option (list IReferenceChunk);
  doc_aggs : option (list Docagg)
}.

(** A string used as a condition: [undefined] and [''] are falsy. *)
Definition truthy (o : option string) : bool :=
  match o with
  | Some s => negb (String.eqb s "")
  | None => false
  end.

(** ** Strings *)

Fixpoint strip_prefix (p s : string) : option string :=
  match p, s with
  | EmptyString, _ => Some s
  | String a p', String b s' => if Ascii.eqb a b then strip_prefix p' s' else None
  | String _ _, EmptyString => None
  end.

Definition is_digit (c : ascii) : bool :=
  let n := nat_of_ascii c in (48 <=? n) && (n <=? 57).

(** The longest run of decimal digits at the head of [s], and what follows. *)
Fixpoint span_digits (s : string) : string * string :=
  match s with
  | String c s' =>
      if is_digit c
      then let '(ds, rest) := span_digits s' in (String c ds, rest)
      else (EmptyString, s)
  | EmptyString => (EmptyString, EmptyString)
  end.

Fixpoint all_digits (s : string) : bool :=
  match s with
  | EmptyString => true
  | String c s' => is_digit c && all_digits s'
  end.

(** The head of [s], if any, is no digit. *)
Definition stops_digits (s : string) : bool :=
  match s with
  | String c _ => negb (is_digit c)
  | EmptyString => true
  end.

(** [p] occurs in [s]. *)
Fixpoint contains (p s : string) : bool :=
  match strip_prefix p s with
  | Some _ => true
  | None =>
      match s with
      | EmptyString => false
      | String _ s' => contains p s'
      end
  end.

(** [Number(match)] on a run of decimal digits.  The index is a [nat]: it
    is exact where [Number] rounds (from 2^53 on), and no array is that long. *)
Fixpoint digits_value (acc : nat) (s : string) : nat :=
  match s with
  | EmptyString => acc
  | String c s' => digits_value (10 * acc + (nat_of_ascii c - 48)) s'
  end.

Definition getChunkIndex (match_ : string) : nat := digits_value 0 match_.


(** ** The marker grammar ([currentReg], imported from [../utils]) *)

(** Modelled from the spec: the delimiters of the current marker grammar.
    The constant [currentReg] is not in the sources; the spec gives the
    grammar as "a delimiter pair surrounding a decimal integer, e.g. a marker
    of the form ⟦k⟧". *)
Definition marker_open : string := "⟦".

(** Modelled from the spec: the closing delimiter of the same marker form. *)
Definition marker_close : string := "⟧".

(** Modelled from the spec: [currentReg], the opening delimiter, one or more
    decimal digits and the closing delimiter.  The source reads the first
    capture group with [Number], so the group is the digits alone.  This is
    one attempt of the regular expression at the head of [s]: the captured
    digits and the text after the match.  The closing delimiter starts with a
    byte that is no digit, so the greedy [\d+] never gives a digit back. *)
Definition currentReg (s : string) : option (string * string) :=
  match strip_prefix marker_open s with
  | Some body =>
      let '(ds, rest) := span_digits body in
      match ds with
      | EmptyString => None
      | String _ _ =>
          match strip_prefix marker_close rest with
          | Some rest' => Some (ds, rest')
          | None => None
          end
      end
  | None => None
  end.

(** The text of the marker whose digits are [ds]. *)
Definition marker_text (ds : string) : string :=
  marker_open +:+ ds +:+ marker_close.

(** Every place of [s] where a marker starts, left to right, with its digits. *)
Fixpoint occurrences (s : string) : list string :=
  match s with
  | EmptyString => []
  | String _ s' =>
      match currentReg s with
      | Some (ds, _) => ds :: occurrences s'
      | None => occurrences s'
      end
  end.

(** The markers of [piece +:+ s] that start inside [piece]. *)
Fixpoint starts_in (piece s : string) : list string :=
  match piece with
  | EmptyString => []
  | String _ piece' =>
      match currentReg (piece +:+ s) with
      | Some (ds, _) => ds :: starts_in piece' s
      | None => starts_in piece' s
      end
  end.

(** ** [String.prototype.split] with a one-group regular expression *)

Inductive segment :=
| Lit (text : string)
| Cap (group : string).

(** [str.split(currentReg)]: literal pieces at the even places, captured
    groups at the odd ones.  [fuel] bounds the number of places tried; the
    length of the text is enough ([split_fuel_enough]). *)
Fixpoint split_fuel (fuel : nat) (s piece : string) : list segment :=
  match fuel with
  | 0 => [Lit (piece +:+ s)]
  | S fuel' =>
      match s with
      | EmptyString => [Lit piece]
      | String c s' =>
          match currentReg s with
          | Some (ds, rest) => Lit piece :: Cap ds :: split_fuel fuel' rest EmptyString
          | None => split_fuel fuel' s' (piece +:+ String c EmptyString)
          end
      end
  end.

Definition split (s : string) : list segment :=
  split_fuel (String.length s) s EmptyString.

(** The captured groups of a split text. *)
Definition caps (segs : list segment) : list string :=
  omap (λ seg, match seg with Cap g => Some g | Lit _ => None end) segs.

(** The literal pieces of a split text. *)
Definition lits (segs : list segment) : list string :=
  omap (λ seg, match seg with Lit s => Some s | Cap _ => None end) segs.

(** The text a split came from: pieces and markers put back in order. *)
Fixpoint join (segs : list segment) : string :=
  match segs with
  | [] => ""
  | Lit s :: segs' => s +:+ join segs'
  | Cap g :: segs' => marker_text g +:+ join segs'
  end.

(** ** Click effects and rendered nodes *)

(** What activating a document link does. *)
Inductive ClickEffect :=
| NoEffect
| WindowOpen (url target : string)
| ClickDocumentButton (documentId : string) (chunk : option IReferenceChunk).

(** What reading a property of the thumbnails object gives: the string of
    an own property, or a member that a plain object inherits from
    [Object.prototype] (a function, or the prototype itself). *)
Inductive Member :=
| Own (value : string)
| Inherited (key : string).

(** The members of [Object.prototype]. *)
Definition prototype_keys : list string :=
  ["constructor"; "hasOwnProperty"; "isPrototypeOf"; "propertyIsEnumerable";
   "toLocaleString"; "toString"; "valueOf"; "__proto__";
   "__defineGetter__"; "__defineSetter__"; "__lookupGetter__"; "__lookupSetter__"].

(** [object[key]] on a plain object with string-valued own properties: an
    own property hides the inherited member of its name, and a key found
    neither on the object nor on its prototype reads as [undefined]. *)
Definition read_property (object : gmap string string) (key : string) : option Member :=
  match object !! key with
  | Some value => Some (Own value)
  | None => if bool_decide (key ∈ prototype_keys) then Some (Inherited key) else None
  end.

(** A property used as a condition: an inherited member is an object, and
    truthy. *)
Definition truthy_member (o : option Member) : bool :=
  match o with
  | Some (Own value) => negb (String.eqb value "")
  | Some (Inherited _) => true
  | None => false
  end.

(** The thumbnail of a document link: an [img] whose [src] is what was read
    for the document, or the icon of the file extension. *)
Inductive Thumbnail :=
| ImgSrc (src : Member)
| SvgIcon (name : string).

Record DocumentLink := {
  link_thumbnail : Thumbnail;
  link_onClick : ClickEffect;
  link_label : option string
}.

(** The popover body: an optional image preview, the chunk text given to
    [dangerouslySetInnerHTML], and an optional document link. *)
Record PopoverContent := {
  pop_image : option string;
  pop_html : string;
  pop_link : option DocumentLink
}.

#[local] Unset Elimination Schemes.

(** Rendered (React) nodes.  [RHighlighted] is the syntax highlighter on a
    code text; [RRaw] is a raw-HTML span, which [rehypeRaw] parses as HTML. *)
Inductive rnode :=
| RText (s : string)
| RImage (image : option string) (onClick : ClickEffect)
| RPopover (body : PopoverContent)
| RElement (tagName : string) (children : list rnode)
| RFragment (children : list rnode)
| RHighlighted (language text : string)
| RRaw (html : string).

(** ** The document tree (hast) *)

Inductive hast :=
| Root (children : list hast)
| Element (tagName : string) (properties : list (string * string)) (children : list hast)
| Text (value : string)
| Raw (html : string).

#[local] Set Elimination Schemes.

Definition custom_typography : string := "custom-typography".
Definition code : string := "code".

(** [node.tagName] of an ancestor: the root has none. *)
Definition tagName_of (node : hast) : option string :=
  match node with
  | Element tag _ _ => Some tag
  | _ => None
  end.

Definition children_of (node : hast) : list hast :=
  match node with
  | Root children | Element _ _ children => children
  | _ => []
  end.

Definition is_text (node : hast) : bool :=
  match node with
  | Text _ => true
  | _ => false
  end.

(** The node reached from [node] by the child ranks of [path]. *)
Fixpoint node_at (path : list nat) (node : hast) : option hast :=
  match path with
  | [] => Some node
  | i :: path' => children_of node !! i ≫= node_at path'
  end.

(** ** [rehypeWrapReference] *)

(** The test of the visitor: a text node under this parent is wrapped. *)
Definition wraps (latestAncestor : hast) : bool :=
  bool_decide (tagName_of latestAncestor ≠ Some custom_typography) &&
  bool_decide (tagName_of latestAncestor ≠ Some code).

(** The visitor, on a text node with its ancestors (outermost first).
    [None] is the TypeError of reading [tagName] of [ancestors.at(-1)] when
    there is no ancestor. *)
Definition wrapText (ancestors : list hast) (value : string) : option hast :=
  latestAncestor ← last ancestors;
  if wraps latestAncestor
  then Some (Element custom_typography [] [Text value])
  else Some (Text value).

(** [visitParents(tree, 'text', visitor)]: pre-order, each node with the
    chain of its ancestors.  A text node that the visitor turned into an
    element has children by then, and the traversal enters them: the fresh
    text child is visited once more, under its new parent. *)
Fixpoint visitParents (ancestors : list hast) (node : hast) : option hast :=
  match node with
  | Text value =>
      node' ← wrapText ancestors value;
      match node' with
      | Element tag props [Text v] =>
          child ← wrapText (ancestors ++ [node']) v;
          Some (Element tag props [child])
      | _ => Some node'
      end
  | Element tag props children =>
      Element tag props <$> mapM (visitParents (ancestors ++ [node])) children
  | Root children =>
      Root <$> mapM (visitParents (ancestors ++ [node])) children
  | Raw _ => Some node
  end.

Definition wrapTextTransform (tree : hast) : option hast :=
  visitParents [] tree.

(** A node on which a second run of the pass changes nothing, whatever the
    ancestors, as long as the parent has the same tag. *)
Definition settled (node : hast) : Prop :=
  ∀ ancestors ancestors' node',
    visitParents ancestors node = Some node' →
    tagName_of <$> last ancestors = tagName_of <$> last ancestors' →
    visitParents ancestors' node' = Some node'.

(** ** react-string-replace *)

(** [replaceString]: split, then the callback on the places of odd rank. *)
Definition replaceString (fn : string → rnode) (str : string) : list rnode :=
  (λ seg, match seg with Lit s => RText s | Cap g => fn g end) <$> split str.

(** [reactStringReplace]: strings of the source are replaced, other nodes
    are kept, and the results are flattened. *)
Definition reactStringReplace (fn : string → rnode) (source : list rnode) : list rnode :=
  source ≫= (λ x, match x with RText s => replaceString fn s | _ => [x] end).

(** ** The [code] component *)

Definition is_word (c : ascii) : bool :=
  let n := nat_of_ascii c in
  is_digit c || ((65 <=? n) && (n <=? 90)) || ((97 <=? n) && (n <=? 122)) || (n =? 95).

(** The longest run of word characters at the head of [s]. *)
Fixpoint span_word (s : string) : string :=
  match s with
  | String c s' => if is_word c then String c (span_word s') else EmptyString
  | EmptyString => EmptyString
  end.

Fixpoint all_word (s : string) : bool :=
  match s with
  | EmptyString => true
  | String c s' => is_word c && all_word s'
  end.

(** [/language-(\w+)/.exec(className)]: the captured group of the leftmost match. *)
Fixpoint language_of (className : string) : option string :=
  match
    match strip_prefix "language-" className with
    | Some rest =>
        match span_word rest with
        | EmptyString => None
        | w => Some w
        end
    | None => None
    end
  with
  | Some w => Some w
  | None =>
      match className with
      | String _ className' => language_of className'
      | EmptyString => None
      end
  end.

(** [props.className], the empty string when it is absent. *)
Fixpoint className (props : list (string * string)) : string :=
  match props with
  | (key, value) :: props' =>
      if String.eqb key "className" then value else className props'
  | [] => ""
  end.

(** [String(children)]: a string child is itself, any other child prints as
    an object, several children are joined by commas, no child is [undefined]. *)
Definition stringify_child (child : rnode) : string :=
  match child with
  | RText s => s
  | _ => "[object Object]"
  end.

Fixpoint stringify_children (children : list rnode) : string :=
  match children with
  | [] => ""
  | [child] => stringify_child child
  | child :: children' => stringify_child child +:+ "," +:+ stringify_children children'
  end.

Definition stringify (children : list rnode) : string :=
  match children with
  | [] => "undefined"
  | _ => stringify_children children
  end.

(** [.replace(/\n$/, '')] *)
Fixpoint strip_final_newline (s : string) : string :=
  match s with
  | String c EmptyString => if Ascii.eqb c "010" then EmptyString else s
  | String c s' => String c (strip_final_newline s')
  | EmptyString => EmptyString
  end.

(** The [code] component: with a language class the text of the children
    goes to the syntax highlighter, without one the element is kept. *)
Definition codeComponent (props : list (string * string)) (children : list rnode) : rnode :=
  match language_of (className props) with
  | Some language => RHighlighted language (strip_final_newline (stringify children))
  | None => RElement code children
  end.

(** ** What is read off a tree *)




(** Code and wrapper regions are literal: the children of a code element and
    of a custom-typography element are text nodes.  The tree builder makes
    code elements so, and no custom-typography element at all. *)
Fixpoint regions_literal (node : hast) : bool :=
  match node with
  | Element tag _ children =>
      if String.eqb tag code || String.eqb tag custom_typography
      then forallb is_text children
      else forallb regions_literal children
  | Root children => forallb regions_literal children
  | _ => true
  end.

(** The citation nodes of a rendered tree, in document order. *)
Fixpoint citations (node : rnode) : list rnode :=
  match node with
  | RImage _ _ | RPopover _ => [node]
  | RElement _ children | RFragment children => children ≫= citations
  | _ => []
  end.

(** The texts of a rendered tree that lie in no code element; a raw-HTML
    span counts with what is written in it. *)
Fixpoint texts_outside_code (node : rnode) : list string :=
  match node with
  | RText s => [s]
  | RElement tag children =>
      if String.eqb tag code then []
      else children ≫= texts_outside_code
  | RFragment children => children ≫= texts_outside_code
  | RRaw html => [html]
  | _ => []
  end.

(** The values of the text nodes of a tree, in document order. *)
Fixpoint text_values (node : hast) : list string :=
  match node with
  | Text value => [value]
  | Root children | Element _ _ children => children ≫= text_values
  | Raw _ => []
  end.

(** Every text node below [node] lies directly under a parent that the
    visitor does not wrap under: a custom-typography or a code element. *)
Fixpoint texts_guarded (node : hast) : bool :=
  match node with
  | Root children | Element _ _ children =>
      forallb (λ c, if is_text c then negb (wraps node) else texts_guarded c) children
  | _ => true
  end.

(** The action of a click on a citation node: on the image itself, or on
    the document link of the popover. *)
Definition click_of (node : rnode) : ClickEffect :=
  match node with
  | RImage _ onClick => onClick
  | RPopover body =>
      match pop_link body with
      | Some link => link_onClick link
      | None => NoEffect
      end
  | _ => NoEffect
  end.

(** ** The component *)

(** What the component reads besides the tree: its props, the results of its
    hooks and the helpers it imports. *)
Record Env := {
  (** The prop [reference]. *)
  reference : option IReference;
  (** Whether the optional prop [clickDocumentButton] was passed. *)
  clickDocumentButton : bool;
  (** [t] of [useTranslation]. *)
  t : string → string;
  (** [data] of [useFetchDocumentThumbnailsByIds]: the own properties of
      the object, keyed by document id. *)
  fileThumbnails : gmap string string;
  (** [DOMPurify.sanitize]. *)
  sanitize : string → string;
  (** [showImage] of [@/utils/chat]: the chunk's type indicates visual media. *)
  showImage : option string → bool;
  (** [getExtension] of [@/utils/document-util]. *)
  getExtension : option string → string;
  (** The three text passes, of [../utils] and of [@/utils/chat]. *)
  replaceTextByOldReg : string → string;
  replaceThinkToSection : string → string;
  preprocessLaTeX : string → string;
  (** The two library plugins that run after [rehypeWrapReference]: the
      typesetting of math elements, and the HTML parser on the whole tree,
      which turns the raw-HTML spans into elements and texts and can move
      nodes on the way. *)
  rehypeKatex : hast → hast;
  rehypeRaw : hast → hast
}.

Section MarkdownContent.

Context (env : Env).

(** [pipe(replaceThinkToSection, preprocessLaTeX)] after [replaceTextByOldReg]. *)
Definition normalize (text : string) : string :=
  preprocessLaTeX env (replaceThinkToSection env (replaceTextByOldReg env text)).

(** The sanitizer call on [content] is commented out in the source. *)
Definition contentWithCursor (content : string) : string :=
  let text := content in
  let text := if String.eqb text "" then t env "chat.searching" else text in
  let nextText := replaceTextByOldReg env text in
  preprocessLaTeX env (replaceThinkToSection env nextText).

(** The argument of [setDocumentIds] in the effect on [reference]: the ids
    of the document aggregates, none when [doc_aggs] is no array. *)
Definition documentIds : list string :=
  let docAggs := reference env ≫= doc_aggs in
  match docAggs with
  | Some docAggs => doc_id <$> docAggs
  | None => []
  end.

Definition handleDocumentButtonClick (documentId : string)
    (chunk : option IReferenceChunk) (isPdf : bool)
    (documentUrl : option string) : ClickEffect :=
  if negb isPdf then
    if negb (truthy documentUrl) then NoEffect
    else WindowOpen (default "" documentUrl) "_blank"
  else
    if clickDocumentButton env then ClickDocumentButton documentId chunk
    else NoEffect.

Record ReferenceInfo := {
  documentUrl : option string;
  fileThumbnail : option Member;
  fileExtension : string;
  imageId : option string;
  chunkItem : option IReferenceChunk;
  documentId : option string;
  document : option Docagg
}.

Definition getReferenceInfo (chunkIndex : nat) : ReferenceInfo :=
  let chunks := default [] (reference env ≫= chunks) in
  let chunkItem := chunks !! chunkIndex in
  let document :=
    (reference env ≫= doc_aggs) ≫=
      List.find (λ x, bool_decide (Some (doc_id x) = document_id <$> chunkItem)) in
  let documentId := doc_id <$> document in
  let documentUrl := document ≫= url in
  let fileThumbnail :=
    if truthy documentId then read_property (fileThumbnails env) (default "" documentId)
    else Some (Own "") in
  let fileExtension :=
    if truthy documentId then getExtension env (doc_name <$> document) else "" in
  let imageId := chunkItem ≫= image_id in
  {| documentUrl := documentUrl; fileThumbnail := fileThumbnail;
     fileExtension := fileExtension; imageId := imageId;
     chunkItem := chunkItem; documentId := documentId; document := document |}.

Definition getPopoverContent (chunkIndex : nat) : PopoverContent :=
  let info := getReferenceInfo chunkIndex in
  {| pop_image := if truthy (imageId info) then imageId info else None;
     pop_html := sanitize env (default "" (chunkItem info ≫= content));
     pop_link :=
       if truthy (documentId info) then
         Some {| link_thumbnail :=
                   if truthy_member (fileThumbnail info)
                   then ImgSrc (default (Own "") (fileThumbnail info))
                   else SvgIcon ("file-icon/" +:+ fileExtension info);
                 link_onClick :=
                   handleDocumentButtonClick (default "" (documentId info))
                     (chunkItem info)
                     (String.eqb (fileExtension info) "pdf")
                     (documentUrl info);
                 link_label := doc_name <$> document info |}
       else None |}.

(** The callback that [renderReference] gives to [reactStringReplace], on
    the captured group of a match. *)
Definition renderMarker (match_ : string) : rnode :=
  let chunkIndex := getChunkIndex match_ in
  let info := getReferenceInfo chunkIndex in
  let docType := chunkItem info ≫= doc_type in
  if showImage env docType then
    RImage (imageId info)
      (if truthy (documentId info)
       then handleDocumentButtonClick (default "" (documentId info))
              (chunkItem info)
              (String.eqb (fileExtension info) "pdf")
              (documentUrl info)
       else NoEffect)
  else RPopover (getPopoverContent chunkIndex).

Definition renderReference (children : list rnode) : list rnode :=
  reactStringReplace renderMarker children.

(** The tree as React nodes, by the [components] of the [Markdown] element:
    a [custom-typography] element is drawn by [renderReference] on its
    children, a [code] element by the [code] component, a table inside a
    [div]; any other element keeps its tag and its children (the components
    for lists, paragraphs, headings, quotes and table cells only add class
    names and styles). *)
Fixpoint toReact (node : hast) : rnode :=
  match node with
  | Text value => RText value
  | Raw html => RRaw html
  | Root children => RFragment (toReact <$> children)
  | Element tag props children =>
      if String.eqb tag custom_typography
      then RFragment (renderReference (toReact <$> children))
      else if String.eqb tag code
      then codeComponent props (toReact <$> children)
      else if String.eqb tag "table"
      then RElement "div" [RElement "table" (toReact <$> children)]
      else RElement tag (toReact <$> children)
  end.

(** The tree of the answer, wrapped by the pass and drawn by the components
    as the pass returns it: the render of an answer on which the two later
    plugins change nothing.  A raw-HTML span is drawn as it is written. *)
Definition render (tree : hast) : option rnode :=
  toReact <$> wrapTextTransform tree.





(** What a marker is drawn as when no chunk answers its index: an image
    without id and without action, or a popover with no image, the sanitized
    empty text and no document link. *)
Definition inert_node : rnode :=
  if showImage env None then RImage None NoEffect
  else RPopover {| pop_image := None; pop_html := sanitize env ""; pop_link := None |}.

End MarkdownContent.

(** ** A reference table and collaborators to evaluate on *)

Module Scenario.

Definition chunk0 : IReferenceChunk :=
  {| id := "c0"; content := Some "<b>bold</b>"; document_id := "d0";
     image_id := Some "img1"; doc_type := Some "image" |}.

Definition chunk1 : IReferenceChunk :=
  {| id := "c1"; content := Some "<script>alert(1)</script>text";
     document_id := "missing"; image_id := None; doc_type := Some "text" |}.

Definition chunk2 : IReferenceChunk :=
  {| id := "c2"; content := Some "notes"; document_id := "d2";
     image_id := None; doc_type := Some "text" |}.

Definition doc0 : Docagg :=
  {| doc_id := "d0"; doc_name := "report.pdf";
     url := Some "https://example.org/report.pdf" |}.

Definition doc2 : Docagg :=
  {| doc_id := "d2"; doc_name := "notes.txt"; url := None |}.

Definition table : option IReference :=
  Some {| chunks := Some [chunk0; chunk1; chunk2]; doc_aggs := Some [doc0; doc2] |}.

(** A later aggregate with the id of [doc2], and a document whose id is the
    name of a member of [Object.prototype]. *)
Definition doc2_again : Docagg :=
  {| doc_id := "d2"; doc_name := "copy.pdf";
     url := Some "https://example.org/copy.pdf" |}.

Definition doc_constructor : Docagg :=
  {| doc_id := "constructor"; doc_name := "plan.docx"; url := None |}.

Definition chunk3 : IReferenceChunk :=
  {| id := "c3"; content := Some "plan"; document_id := "constructor";
     image_id := None; doc_type := Some "text" |}.

Definition table_twice : option IReference :=
  Some {| chunks := Some [chunk0; chunk1; chunk2; chunk3];
          doc_aggs := Some [doc0; doc2; doc2_again; doc_constructor] |}.

(** A translation table with the one key the component reads. *)
Definition translate (key : string) : string :=
  if String.eqb key "chat.searching" then "Searching..." else key.

(** A sanitizer that removes every [<]: nothing of its output is markup. *)
Fixpoint strip_markup (s : string) : string :=
  match s with
  | EmptyString => EmptyString
  | String c s' =>
      if Ascii.eqb c "<" then strip_markup s' else String c (strip_markup s')
  end.

(** Executable markup, as far as these examples need it: a script tag. *)
Definition has_script (s : string) : bool := contains "<script" s.

(** Visual media: the type "image". *)
Definition is_image (docType : option string) : bool :=
  bool_decide (docType = Some "image").

(** The text after the last dot of the name. *)
Fixpoint after_last_dot (acc s : string) : string :=
  match s with
  | EmptyString => acc
  | String c s' =>
      if Ascii.eqb c "." then after_last_dot s' s' else after_last_dot acc s'
  end.

Definition extension (name : option string) : string :=
  match name with
  | Some n => after_last_dot n n
  | None => ""
  end.

(** A text with no legacy marker, no reasoning tag and no math delimiter is
    returned as it is by each of the three passes (spec, 4.1); the texts
    evaluated below are of that kind. *)
Definition unchanged (text : string) : string := text.

(** A tree without math element and without raw-HTML span, well nested as
    HTML, is returned as it is by each of the two later plugins; the trees
    given to [Markdown] below are of that kind. *)
Definition kept (tree : hast) : hast := tree.

(** The component on this table, with the callback passed and no thumbnail
    fetched. *)
Definition env : Env :=
  {| reference := table; clickDocumentButton := true; t := translate;
     fileThumbnails := ∅; sanitize := strip_markup; showImage := is_image;
     getExtension := extension; replaceTextByOldReg := unchanged;
     replaceThinkToSection := unchanged; preprocessLaTeX := unchanged;
     rehypeKatex := kept; rehypeRaw := kept |}.

(** The component on the table with the repeated id, the thumbnail of [d0]
    fetched. *)
Definition env_twice : Env :=
  {| reference := table_twice; clickDocumentButton := true; t := translate;
     fileThumbnails := {["d0" := "https://example.org/d0.png"]};
     sanitize := strip_markup; showImage := is_image;
     getExtension := extension; replaceTextByOldReg := unchanged;
     replaceThinkToSection := unchanged; preprocessLaTeX := unchanged;
     rehypeKatex := kept; rehypeRaw := kept |}.

End Scenario.

(** * Properties *)

(** ** Strings *)

Lemma app_cons c s w : String c s +:+ w = String c (s +:+ w).
Proof. reflexivity. Qed.

Lemma app_empty_l w : "" +:+ w = w.
Proof. reflexivity. Qed.

Lemma app_empty_r s : s +:+ "" = s.
Proof. induction s as [|c s IH]; [done|]. by rewrite app_cons, IH. Qed.

Lemma app_assoc_str s u w : (s +:+ u) +:+ w = s +:+ (u +:+ w).
Proof. induction s as [|c s IH]; [done|]. by rewrite !app_cons, IH. Qed.

Lemma length_app_str s w : String.length (s +:+ w) = String.length s + String.length w.
Proof. induction s as [|c s IH]; [done|]. rewrite app_cons. simpl. by rewrite IH. Qed.

Lemma strip_prefix_Some p s r : strip_prefix p s = Some r → s = p +:+ r.
Proof.
  revert s. induction p as [|a p IH]; intros s H; simpl in H.
  - by destruct s; simplify_eq.
  - destruct s as [|b s]; [done|].
    destruct (Ascii.eqb_spec a b) as [->|]; [|done].
    rewrite app_cons. f_equal. by apply IH.
Qed.

Lemma strip_prefix_app p r : strip_prefix p (p +:+ r) = Some r.
Proof.
  induction p as [|a p IH]; [by destruct r|].
  rewrite app_cons. simpl. by rewrite Ascii.eqb_refl.
Qed.

Lemma span_digits_spec s ds rest :
  span_digits s = (ds, rest) →
  s = ds +:+ rest ∧ all_digits ds = true ∧ stops_digits rest = true.
Proof.
  revert ds rest. induction s as [|c s IH]; intros ds rest H; simpl in H.
  - by simplify_eq.
  - destruct (is_digit c) eqn:Hc.
    + destruct (span_digits s) as [ds' rest'] eqn:Hs. simplify_eq.
      destruct (IH _ _ eq_refl) as (-> & Hd & Hr).
      rewrite app_cons. simpl. by rewrite Hc, Hd.
    + simplify_eq. simpl. by rewrite Hc.
Qed.

Lemma span_digits_app ds rest :
  all_digits ds = true → stops_digits rest = true →
  span_digits (ds +:+ rest) = (ds, rest).
Proof.
  intros Hd Hr. induction ds as [|c ds IH].
  - rewrite app_empty_l. destruct rest as [|c rest]; [done|].
    simpl in *. by destruct (is_digit c).
  - simpl in Hd. apply andb_true_iff in Hd as [Hc Hd].
    rewrite app_cons. simpl. by rewrite Hc, IH.
Qed.



(** ** The marker grammar *)

Lemma marker_open_app s :
  marker_open +:+ s = String "226" (String "159" (String "166" s)).
Proof. reflexivity. Qed.

Lemma marker_close_app s :
  marker_close +:+ s = String "226" (String "159" (String "167" s)).
Proof. reflexivity. Qed.

Lemma marker_close_stops rest : stops_digits (marker_close +:+ rest) = true.
Proof. reflexivity. Qed.

Lemma currentReg_Some s ds rest :
  currentReg s = Some (ds, rest) →
  s = marker_open +:+ ds +:+ marker_close +:+ rest ∧
  all_digits ds = true ∧ ds ≠ "".
Proof.
  unfold currentReg. intros H.
  destruct (strip_prefix marker_open s) as [body|] eqn:Ho; [|done].
  destruct (span_digits body) as [ds' rest'] eqn:Hs.
  destruct ds' as [|c ds']; [done|].
  destruct (strip_prefix marker_close rest') as [rest''|] eqn:Hc; [|done].
  simplify_eq.
  apply strip_prefix_Some in Ho as ->, Hc as ->.
  apply span_digits_spec in Hs as (-> & Hd & _). done.
Qed.

Lemma currentReg_marker ds rest :
  all_digits ds = true → ds ≠ "" →
  currentReg (marker_open +:+ ds +:+ marker_close +:+ rest) = Some (ds, rest).
Proof.
  intros Hd Hne. unfold currentReg.
  rewrite strip_prefix_app, span_digits_app by (done || apply marker_close_stops).
  destruct ds; [done|]. by rewrite strip_prefix_app.
Qed.

Lemma currentReg_app s w ds rest :
  currentReg s = Some (ds, rest) → currentReg (s +:+ w) = Some (ds, rest +:+ w).
Proof.
  intros (-> & Hd & Hne)%currentReg_Some.
  rewrite !app_assoc_str. by apply currentReg_marker.
Qed.

Lemma currentReg_shorter s ds rest :
  currentReg s = Some (ds, rest) → String.length rest < String.length s.
Proof.
  intros (-> & _ & _)%currentReg_Some.
  rewrite marker_open_app. simpl. rewrite !length_app_str. lia.
Qed.

Lemma currentReg_head c s : is_Some (currentReg (String c s)) → c = "226"%char.
Proof.
  intros [[ds rest] H]. apply currentReg_Some in H as (H & _).
  rewrite marker_open_app in H. by simplify_eq.
Qed.

Lemma currentReg_not_open c s : c ≠ "226"%char → currentReg (String c s) = None.
Proof.
  intros Hc. destruct (currentReg (String c s)) eqn:H; [|done].
  destruct Hc. apply (currentReg_head c s). by rewrite H.
Qed.

Lemma occurrences_cons c s :
  occurrences (String c s) =
  match currentReg (String c s) with
  | Some (ds, _) => ds :: occurrences s
  | None => occurrences s
  end.
Proof. reflexivity. Qed.

Lemma occurrences_skip c s : c ≠ "226"%char → occurrences (String c s) = occurrences s.
Proof. intros Hc. by rewrite occurrences_cons, currentReg_not_open. Qed.

Lemma is_digit_not_open c : is_digit c = true → c ≠ "226"%char.
Proof. by intros H ->. Qed.

Lemma occurrences_digits ds s :
  all_digits ds = true → occurrences (ds +:+ s) = occurrences s.
Proof.
  induction ds as [|c ds IH]; [done|].
  intros [Hc Hd]%andb_true_iff. rewrite app_cons.
  rewrite occurrences_skip by by apply is_digit_not_open. auto.
Qed.

Lemma occurrences_close rest : occurrences (marker_close +:+ rest) = occurrences rest.
Proof.
  rewrite marker_close_app.
  assert (currentReg (String "226" (String "159" (String "167" rest))) = None) as H.
  { reflexivity. }
  rewrite occurrences_cons, H.
  by rewrite !occurrences_skip.
Qed.

(** No marker starts inside another one. *)
Lemma occurrences_match c s ds rest :
  currentReg (String c s) = Some (ds, rest) →
  occurrences (String c s) = ds :: occurrences rest.
Proof.
  intros H. rewrite occurrences_cons, H. f_equal.
  apply currentReg_Some in H as (H & Hd & _).
  rewrite marker_open_app in H. simplify_eq.
  rewrite !occurrences_skip by done.
  by rewrite occurrences_digits, occurrences_close.
Qed.

(** ** Splitting a text at its markers *)

Lemma starts_in_cons c piece s :
  starts_in (String c piece) s =
  match currentReg (String c (piece +:+ s)) with
  | Some (ds, _) => ds :: starts_in piece s
  | None => starts_in piece s
  end.
Proof. reflexivity. Qed.

Lemma starts_in_occurrences piece : starts_in piece "" = occurrences piece.
Proof.
  induction piece as [|c piece IH]; [done|].
  by rewrite starts_in_cons, occurrences_cons, app_empty_r, IH.
Qed.

(** A marker that starts in [piece] and ends there is a marker of any longer text. *)
Lemma starts_in_nil piece s : starts_in piece s = [] → starts_in piece "" = [].
Proof.
  induction piece as [|c piece IH]; [done|].
  rewrite !starts_in_cons, app_empty_r. intros H.
  destruct (currentReg (String c piece)) as [[ds rest]|] eqn:Hm.
  - apply (currentReg_app _ s) in Hm. rewrite app_cons in Hm.
    by rewrite Hm in H.
  - destruct (currentReg (String c (piece +:+ s))) as [[ds rest]|]; [done|auto].
Qed.

Lemma starts_in_snoc piece c s :
  currentReg (String c s) = None →
  starts_in (piece +:+ String c "") s = starts_in piece (String c s).
Proof.
  intros Hc. induction piece as [|a piece IH].
  - rewrite app_empty_l, starts_in_cons, app_empty_l. by rewrite Hc.
  - rewrite app_cons, !starts_in_cons, IH.
    by rewrite app_assoc_str.
Qed.

Lemma split_fuel_S n c s piece :
  split_fuel (S n) (String c s) piece =
  match currentReg (String c s) with
  | Some (ds, rest) => Lit piece :: Cap ds :: split_fuel n rest ""
  | None => split_fuel n s (piece +:+ String c "")
  end.
Proof. reflexivity. Qed.

(** The captured groups are the markers of the text, each once, in order. *)
Lemma split_fuel_caps n : ∀ s piece,
  String.length s ≤ n → caps (split_fuel n s piece) = occurrences s.
Proof.
  induction n as [|n IH]; intros s piece Hn.
  - by destruct s; [|simpl in Hn; lia].
  - destruct s as [|c s]; [done|]. rewrite split_fuel_S.
    destruct (currentReg (String c s)) as [[ds rest]|] eqn:Hm.
    + rewrite (occurrences_match _ _ _ _ Hm).
      apply currentReg_shorter in Hm. simpl in Hm, Hn.
      change (ds :: caps (split_fuel n rest "") = ds :: occurrences rest).
      f_equal. apply IH. lia.
    + rewrite occurrences_cons, Hm. apply IH. simpl in Hn. lia.
Qed.

(** No literal piece holds a marker. *)
Lemma split_fuel_lits n : ∀ s piece,
  String.length s ≤ n → starts_in piece s = [] →
  Forall (λ p, occurrences p = []) (lits (split_fuel n s piece)).
Proof.
  induction n as [|n IH]; intros s piece Hn Hp.
  - destruct s; [|simpl in Hn; lia]. simpl. rewrite app_empty_r.
    repeat constructor. by rewrite <-starts_in_occurrences.
  - destruct s as [|c s].
    { repeat constructor. by rewrite <-starts_in_occurrences. }
    rewrite split_fuel_S.
    destruct (currentReg (String c s)) as [[ds rest]|] eqn:Hm.
    + change (Forall (λ p, occurrences p = []) (piece :: lits (split_fuel n rest ""))).
      constructor.
      * rewrite <-starts_in_occurrences. by eapply starts_in_nil.
      * apply currentReg_shorter in Hm. simpl in Hm, Hn. apply IH; [lia|done].
    + simpl in Hn. apply IH; [lia|]. by rewrite starts_in_snoc.
Qed.

(** Pieces and markers, put back in order, are the text: the split drops nothing. *)
Lemma split_fuel_join n : ∀ s piece,
  String.length s ≤ n → join (split_fuel n s piece) = piece +:+ s.
Proof.
  induction n as [|n IH]; intros s piece Hn.
  - destruct s; [|simpl in Hn; lia]. simpl. by rewrite !app_empty_r.
  - destruct s as [|c s]; [simpl; by rewrite !app_empty_r|].
    rewrite split_fuel_S.
    destruct (currentReg (String c s)) as [[ds rest]|] eqn:Hm.
    + pose proof (currentReg_shorter _ _ _ Hm) as Hlt.
      apply currentReg_Some in Hm as (-> & _ & _).
      simpl in Hlt, Hn. cbn [join]. rewrite IH by lia.
      unfold marker_text. by rewrite app_empty_l, !app_assoc_str.
    + simpl in Hn. rewrite IH by lia. by rewrite app_assoc_str.
Qed.

(** Any fuel from the length of the text on gives the same split. *)
Lemma split_fuel_enough n : ∀ m s piece,
  String.length s ≤ n → String.length s ≤ m →
  split_fuel n s piece = split_fuel m s piece.
Proof.
  induction n as [|n IH]; intros m s piece Hn Hm.
  - destruct s; [|simpl in Hn; lia]. destruct m; simpl; by rewrite ?app_empty_r.
  - destruct s as [|c s]; [destruct m; simpl; by rewrite ?app_empty_r|].
    destruct m as [|m]; [simpl in Hm; lia|].
    rewrite !split_fuel_S.
    destruct (currentReg (String c s)) as [[ds rest]|] eqn:Hr.
    + apply currentReg_shorter in Hr. simpl in Hr, Hn, Hm.
      do 2 f_equal. apply IH; lia.
    + simpl in Hn, Hm. apply IH; lia.
Qed.

Lemma split_caps s : caps (split s) = occurrences s.
Proof. by apply split_fuel_caps. Qed.

Lemma split_lits s : Forall (λ p, occurrences p = []) (lits (split s)).
Proof. by apply split_fuel_lits. Qed.

Lemma split_join s : join (split s) = s.
Proof. unfold split. by rewrite split_fuel_join. Qed.

Lemma split_marker ds :
  all_digits ds = true → ds ≠ "" → split (marker_text ds) = [Lit ""; Cap ds; Lit ""].
Proof.
  intros Hd Hne. unfold split, marker_text.
  rewrite marker_open_app. simpl String.length. rewrite split_fuel_S.
  rewrite <-marker_open_app.
  rewrite <-(app_empty_r marker_close) at 1.
  rewrite currentReg_marker by done.
  by destruct (String.length _).
Qed.

(** ** The tree pass *)

(** Induction on trees, with the property known of every child. *)
Lemma hast_ind (P : hast → Prop) :
  (∀ children, Forall P children → P (Root children)) →
  (∀ tag props children, Forall P children → P (Element tag props children)) →
  (∀ value, P (Text value)) →
  (∀ html, P (Raw html)) →
  ∀ node, P node.
Proof.
  intros HRoot HElement HText HRaw.
  fix IH 1. intros [children|tag props children|value|html].
  - apply HRoot. induction children; constructor; auto.
  - apply HElement. induction children; constructor; auto.
  - apply HText.
  - apply HRaw.
Qed.

Lemma last_snoc_hast (ancestors : list hast) node : last (ancestors ++ [node]) = Some node.
Proof. apply last_snoc. Qed.

Lemma wraps_code parent : tagName_of parent = Some code → wraps parent = false.
Proof.
  intros Htag. unfold wraps. rewrite Htag.
  rewrite (bool_decide_eq_false_2 (Some code ≠ Some code)) by (intros H; by apply H).
  apply andb_false_r.
Qed.

Lemma wraps_custom_typography parent :
  tagName_of parent = Some custom_typography → wraps parent = false.
Proof.
  intros Htag. unfold wraps. rewrite Htag.
  by rewrite (bool_decide_eq_false_2 (Some custom_typography ≠ Some custom_typography))
    by (intros H; by apply H).
Qed.


Lemma wrapText_last ancestors parent value :
  last ancestors = Some parent →
  wrapText ancestors value =
  Some (if wraps parent then Element custom_typography [] [Text value] else Text value).
Proof. intros H. unfold wrapText. rewrite H. simpl. by destruct (wraps parent). Qed.

(** The fresh text child of a wrapper is left as it is: the pass ends. *)
Lemma wrapText_fresh ancestors props children value :
  wrapText (ancestors ++ [Element custom_typography props children]) value = Some (Text value).
Proof. by rewrite (wrapText_last _ _ _ (last_snoc _ _)). Qed.

Lemma visitParents_text ancestors parent value :
  last ancestors = Some parent →
  visitParents ancestors (Text value) =
  Some (if wraps parent then Element custom_typography [] [Text value] else Text value).
Proof.
  intros H. simpl. rewrite (wrapText_last _ _ _ H).
  destruct (wraps parent); simpl; [|done].
  by rewrite wrapText_fresh.
Qed.

Lemma visitParents_element ancestors tag props children node' :
  visitParents ancestors (Element tag props children) = Some node' →
  ∃ children',
    node' = Element tag props children' ∧
    Forall2 (λ c c', visitParents (ancestors ++ [Element tag props children]) c = Some c')
      children children'.
Proof.
  simpl. intros H. apply fmap_Some in H as (children' & H & ->).
  exists children'. split; [done|]. by apply mapM_Some_1.
Qed.

Lemma visitParents_root ancestors children node' :
  visitParents ancestors (Root children) = Some node' →
  ∃ children',
    node' = Root children' ∧
    Forall2 (λ c c', visitParents (ancestors ++ [Root children]) c = Some c')
      children children'.
Proof.
  simpl. intros H. apply fmap_Some in H as (children' & H & ->).
  exists children'. split; [done|]. by apply mapM_Some_1.
Qed.

(** Under any ancestor the pass returns a tree; without one it still does on
    a node that is no text. *)
Lemma visitParents_total node : ∀ ancestors,
  ancestors ≠ [] ∨ is_text node = false → is_Some (visitParents ancestors node).
Proof.
  induction node as [children IH|tag props children IH|value|html] using hast_ind;
    intros ancestors Hanc.
  - simpl. apply fmap_is_Some, mapM_is_Some_2.
    eapply Forall_impl; [exact IH|]. intros c Hc. apply Hc. left. by destruct ancestors.
  - simpl. apply fmap_is_Some, mapM_is_Some_2.
    eapply Forall_impl; [exact IH|]. intros c Hc. apply Hc. left. by destruct ancestors.
  - destruct Hanc as [Hanc|]; [|done].
    destruct (last ancestors) as [parent|] eqn:Hl.
    + rewrite (visitParents_text _ _ _ Hl). eauto.
    + by apply last_None in Hl.
  - simpl. eauto.
Qed.

Lemma wrapTextTransform_root children : is_Some (wrapTextTransform (Root children)).
Proof. apply visitParents_total. by right. Qed.

Lemma node_at_app path path' node :
  node_at (path ++ path') node = node_at path node ≫= node_at path'.
Proof.
  revert node. induction path as [|i path IH]; intros node; [done|].
  simpl. destruct (children_of node !! i) as [c|]; simpl; [apply IH|done].
Qed.

(** The pass keeps the shape of the tree: the node at a path of the result
    is the result of the pass on the node at that path. *)
Lemma visitParents_node_at path : ∀ node ancestors node' m,
  visitParents ancestors node = Some node' →
  node_at path node = Some m →
  ∃ ancestors' m',
    visitParents ancestors' m = Some m' ∧ node_at path node' = Some m'.
Proof.
  induction path as [|i path IH]; intros node ancestors node' m Hv Hm.
  - simpl in Hm. simplify_eq. by exists ancestors, node'.
  - simpl in Hm. destruct (children_of node !! i) as [c|] eqn:Hc; [|done].
    simpl in Hm.
    destruct node as [children|tag props children|value|html]; simpl in Hc; try done.
    + apply visitParents_root in Hv as (children' & -> & Hall).
      destruct (Forall2_lookup_l _ _ _ _ _ Hall Hc) as (c' & Hc' & Hvc).
      destruct (IH _ _ _ _ Hvc Hm) as (anc' & m' & ? & ?).
      exists anc', m'. split; [done|]. simpl. by rewrite Hc'.
    + apply visitParents_element in Hv as (children' & -> & Hall).
      destruct (Forall2_lookup_l _ _ _ _ _ Hall Hc) as (c' & Hc' & Hvc).
      destruct (IH _ _ _ _ Hvc Hm) as (anc' & m' & ? & ?).
      exists anc', m'. split; [done|]. simpl. by rewrite Hc'.
Qed.

(** A text child of a code element or of a wrapper stays a text node. *)
Lemma visitParents_skipped ancestors parent parent' i value :
  visitParents ancestors parent = Some parent' →
  tagName_of parent = Some code ∨ tagName_of parent = Some custom_typography →
  children_of parent !! i = Some (Text value) →
  children_of parent' !! i = Some (Text value).
Proof.
  intros Hv Htag Hc.
  assert (wraps parent = false) as Hw.
  { destruct Htag; [by apply wraps_code|by apply wraps_custom_typography]. }
  destruct parent as [children|tag props children|v|html];
    try (by destruct Htag). simpl in Hc.
  apply visitParents_element in Hv as (children' & -> & Hall).
  destruct (Forall2_lookup_l _ _ _ _ _ Hall Hc) as (c' & Hc' & Hvc).
  rewrite (visitParents_text _ _ _ (last_snoc _ _)), Hw in Hvc. by simplify_eq.
Qed.

(** ** Drawing the markers *)

Section Properties.

Context (env : Env).

Lemma renderMarker_citations g : citations (renderMarker env g) = [renderMarker env g].
Proof. unfold renderMarker. by case_match. Qed.

Lemma renderMarker_texts g : texts_outside_code (renderMarker env g) = [].
Proof. unfold renderMarker. by case_match. Qed.

Lemma replaceString_citations s :
  replaceString (renderMarker env) s ≫= citations = renderMarker env <$> occurrences s.
Proof.
  unfold replaceString. rewrite <-split_caps.
  induction (split s) as [|[p|g] segs IH]; [done| |].
  - rewrite fmap_cons, bind_cons. simpl. apply IH.
  - rewrite fmap_cons, bind_cons, renderMarker_citations. simpl.
    f_equal. apply IH.
Qed.

Lemma replaceString_texts s :
  replaceString (renderMarker env) s ≫= texts_outside_code = lits (split s).
Proof.
  unfold replaceString.
  induction (split s) as [|[p|g] segs IH]; [done| |].
  - rewrite fmap_cons, bind_cons. simpl.
    change (lits (Lit p :: segs)) with (p :: lits segs). f_equal. apply IH.
  - rewrite fmap_cons, bind_cons, renderMarker_texts. simpl. apply IH.
Qed.

Lemma renderReference_cons x l :
  renderReference env (x :: l) =
  match x with
  | RText s => replaceString (renderMarker env) s
  | _ => [x]
  end ++ renderReference env l.
Proof. reflexivity. Qed.


Lemma toReact_code props children :
  toReact env (Element code props children) =
  codeComponent props (toReact env <$> children).
Proof. reflexivity. Qed.


(** A code element whose children hold no citation is drawn without one, and
    no text of it counts as text outside code. *)
Lemma codeComponent_citations props children :
  children ≫= citations = [] →
  citations (codeComponent props children) = [] ∧
  texts_outside_code (codeComponent props children) = [].
Proof. intros H. unfold codeComponent. by case_match. Qed.




(** Inside a code element whose children are text nodes the pass changes
    nothing and no citation is drawn. *)
Lemma code_children ancestors parent children children' :
  tagName_of parent = Some code →
  Forall2 (λ c c', visitParents (ancestors ++ [parent]) c = Some c') children children' →
  forallb is_text children = true →
  children' = children ∧ (toReact env <$> children') ≫= citations = [].
Proof.
  intros Htag Hall Htext. pose proof (wraps_code _ Htag) as Hw.
  induction Hall as [|c c' children children' Hv Hall IH]; [done|].
  simpl in Htext. apply andb_true_iff in Htext as [Hc Htext].
  destruct c as [| |value|]; try done.
  rewrite (visitParents_text _ _ _ (last_snoc _ _)), Hw in Hv. simplify_eq.
  destruct (IH Htext) as [-> IHc]. split; [done|].
  rewrite fmap_cons, bind_cons. simpl. exact IHc.
Qed.


(** ** The lookup of a chunk and of its document *)

Lemma find_absent_chunk (aggs : list Docagg) :
  List.find (λ x, bool_decide (Some (doc_id x) = None)) aggs = None.
Proof. induction aggs as [|d aggs IH]; [done|]. simpl. exact IH. Qed.

Lemma find_orphan (aggs : list Docagg) (chunk : IReferenceChunk) :
  document_id chunk ∉ doc_id <$> aggs →
  List.find (λ x, bool_decide (Some (doc_id x) = document_id <$> Some chunk)) aggs = None.
Proof.
  induction aggs as [|d aggs IH]; [done|].
  rewrite fmap_cons, not_elem_of_cons. intros [Hd Haggs]. simpl.
  rewrite bool_decide_eq_false_2 by congruence. auto.
Qed.

Lemma info_absent chunkIndex :
  length (default [] (reference env ≫= chunks)) ≤ chunkIndex →
  getReferenceInfo env chunkIndex =
  {| documentUrl := None; fileThumbnail := Some (Own ""); fileExtension := "";
     imageId := None; chunkItem := None; documentId := None; document := None |}.
Proof.
  intros Hlen. unfold getReferenceInfo. cbv zeta.
  rewrite (lookup_ge_None_2 _ _ Hlen).
  destruct (reference env ≫= doc_aggs) as [aggs|]; simpl; [|done].
  by rewrite find_absent_chunk.
Qed.

Lemma popover_absent chunkIndex :
  length (default [] (reference env ≫= chunks)) ≤ chunkIndex →
  getPopoverContent env chunkIndex =
  {| pop_image := None; pop_html := sanitize env ""; pop_link := None |}.
Proof. intros Hlen. unfold getPopoverContent. by rewrite (info_absent _ Hlen). Qed.

Lemma renderMarker_absent ds :
  length (default [] (reference env ≫= chunks)) ≤ getChunkIndex ds →
  renderMarker env ds = inert_node env.
Proof.
  intros Hlen. unfold renderMarker, inert_node. cbv zeta.
  rewrite (popover_absent _ Hlen), (info_absent _ Hlen). done.
Qed.

Lemma renderReference_marker ds :
  all_digits ds = true → ds ≠ "" →
  renderReference env [RText (marker_text ds)] =
  [RText ""; renderMarker env ds; RText ""].
Proof.
  intros Hd Hne. rewrite renderReference_cons. unfold replaceString.
  by rewrite (split_marker _ Hd Hne).
Qed.



Lemma forallb_lookup {A} (f : A → bool) (l : list A) i x :
  forallb f l = true → l !! i = Some x → f x = true.
Proof.
  revert i. induction l as [|y l IH]; intros i Hall Hx; [done|].
  simpl in Hall. apply andb_true_iff in Hall as [Hy Hall].
  destruct i as [|i]; simpl in Hx; [by simplify_eq|by apply (IH i)].
Qed.

Lemma node_at_text path value m :
  node_at path (Text value) = Some m → path = [] ∧ m = Text value.
Proof. destruct path as [|i path]; simpl; [by intros [= <-]|done]. Qed.

Lemma regions_literal_node_at path : ∀ node m,
  regions_literal node = true → node_at path node = Some m → regions_literal m = true.
Proof.
  induction path as [|i path IH]; intros node m Hlit Hm.
  - simpl in Hm. by simplify_eq.
  - simpl in Hm. destruct (children_of node !! i) as [c|] eqn:Hc; [|done].
    simpl in Hm.
    destruct node as [children|tag props children|value|html]; simpl in Hc; try done.
    + simpl in Hlit. apply (IH c m); [|done]. by apply (forallb_lookup _ _ _ _ Hlit Hc).
    + simpl in Hlit.
      destruct (String.eqb tag code || String.eqb tag custom_typography).
      * pose proof (forallb_lookup _ _ _ _ Hlit Hc) as Htext.
        destruct c as [| |v|]; try done.
        by apply node_at_text in Hm as [_ ->].
      * apply (IH c m); [|done]. by apply (forallb_lookup _ _ _ _ Hlit Hc).
Qed.

(** A text inside a literal region is a child of the region. *)
Lemma region_text_child region inner value :
  tagName_of region = Some code ∨ tagName_of region = Some custom_typography →
  node_at inner region = Some (Text value) →
  length inner = 1 ∨ regions_literal region = true →
  ∃ i, inner = [i] ∧ children_of region !! i = Some (Text value).
Proof.
  intros Htag Hin Hdepth.
  destruct region as [|tag props children| |]; try (by destruct Htag).
  destruct inner as [|i inner]; [done|]. exists i.
  simpl in Hin. destruct (children !! i) as [c|] eqn:Hc; [|done]. simpl in Hin.
  destruct Hdepth as [Hone|Hlit].
  - destruct inner; [|done]. simpl in Hin. by simplify_eq.
  - simpl in Hlit.
    assert (String.eqb tag code || String.eqb tag custom_typography = true) as Hregion.
    { simpl in Htag. destruct Htag as [[= ->]|[= ->]]; [done|].
      by rewrite String.eqb_refl, orb_true_r. }
    rewrite Hregion in Hlit.
    pose proof (forallb_lookup _ _ _ _ Hlit Hc) as Htext.
    destruct c as [| |v|]; try done.
    by apply node_at_text in Hin as [-> [= ->]].
Qed.

(** ** The claims *)

(** C2 — graceful degradation.  For a marker whose index is at least the
    number of chunks, the lookup finds no chunk and every derived field is
    absent (or the empty string), the marker is drawn as the inert node — an
    image without id and action, or a popover with the sanitized empty text
    and no link —, and the render of any answer tree returns a result. *)
Theorem out_of_range_marker_is_inert (ds : string) :
  all_digits ds = true → ds ≠ "" →
  length (default [] (reference env ≫= chunks)) ≤ getChunkIndex ds →
  getReferenceInfo env (getChunkIndex ds) =
    {| documentUrl := None; fileThumbnail := Some (Own ""); fileExtension := "";
       imageId := None; chunkItem := None; documentId := None; document := None |} ∧
  getPopoverContent env (getChunkIndex ds) =
    {| pop_image := None; pop_html := sanitize env ""; pop_link := None |} ∧
  renderReference env [RText (marker_text ds)] =
    [RText ""; inert_node env; RText ""] ∧
  ∀ children, is_Some (render env (Root children)).
Proof.
  intros Hd Hne Hlen. repeat split.
  - by apply info_absent.
  - by apply popover_absent.
  - by rewrite (renderReference_marker _ Hd Hne), (renderMarker_absent _ Hlen).
  - intros children. unfold render. apply fmap_is_Some, wrapTextTransform_root.
Qed.


(** C4 (amended) — the skip rule, on the tree the pass receives.  A text
    node whose parent is a code element or a custom-typography element is
    left as it is by the pass; where the code and custom-typography elements
    of the tree hold text nodes only, as the tree builder makes them, this
    is every text below such an element, at any depth.  A code element
    whose children are all text nodes is left as it is and drawn by the
    [code] component without any citation node. *)
Theorem text_skipped_by_parent (tree tree' : hast) (path inner : list nat)
    (region : hast) (value : string) :
  wrapTextTransform tree = Some tree' →
  node_at path tree = Some region →
  tagName_of region = Some code ∨ tagName_of region = Some custom_typography →
  node_at inner region = Some (Text value) →
  length inner = 1 ∨ regions_literal tree = true →
  node_at (path ++ inner) tree' = Some (Text value) ∧
  (tagName_of region = Some code →
   forallb is_text (children_of region) = true →
   node_at path tree' = Some region ∧ citations (toReact env region) = []).
Proof.
  intros Hw Hp Htag Hin Hdepth.
  assert (length inner = 1 ∨ regions_literal region = true) as Hdepth'.
  { destruct Hdepth as [?|Hlit]; [by left|right].
    exact (regions_literal_node_at _ _ _ Hlit Hp). }
  destruct (region_text_child _ _ _ Htag Hin Hdepth') as (i & -> & Hc).
  destruct (visitParents_node_at _ _ _ _ _ Hw Hp) as (anc & region' & Hv & Hp').
  pose proof (visitParents_skipped _ _ _ _ _ Hv Htag Hc) as Hc'.
  split.
  - rewrite node_at_app, Hp'. simpl. by rewrite Hc'.
  - intros Hcode Htexts. destruct region as [|tag props kids| |]; try done.
    simpl in Hcode, Htexts. simplify_eq.
    apply visitParents_element in Hv as (kids' & -> & Hall).
    destruct (code_children anc (Element code props kids) _ _ eq_refl Hall Htexts)
      as [-> Hcit].
    split; [done|]. rewrite toReact_code.
    by destruct (codeComponent_citations props _ Hcit) as [-> _].
Qed.

(** C5 (amended) — a marker of invalid index is replaced, not kept.  A
    marker of the text whose index is at least the number of chunks is drawn
    as the inert node, which stands among the citation nodes of the text,
    one per marker in order; no literal piece of the output holds a marker. *)
Theorem invalid_marker_replaced (text ds : string) :
  ds ∈ occurrences text →
  length (default [] (reference env ≫= chunks)) ≤ getChunkIndex ds →
  renderMarker env ds = inert_node env ∧
  inert_node env ∈ renderReference env [RText text] ≫= citations ∧
  renderReference env [RText text] ≫= citations =
    renderMarker env <$> occurrences text ∧
  Forall (λ p, occurrences p = [])
    (renderReference env [RText text] ≫= texts_outside_code).
Proof.
  intros Hin Hlen.
  rewrite renderReference_cons. simpl. rewrite !app_nil_r.
  rewrite replaceString_citations, replaceString_texts.
  pose proof (renderMarker_absent _ Hlen) as Hinert.
  repeat split; [done| |apply split_lits].
  rewrite <-Hinert. by apply (list_elem_of_fmap_2 (renderMarker env)).
Qed.

(** C6 — the render mode follows the chunk's type.  The marker of a chunk is
    drawn as an inline image carrying the chunk's image id when the type
    indicates visual media, and as a citation popover otherwise; so a chunk
    of type "image" with image id "img1", "image" being visual media, gives
    an inline image with id "img1". *)
Theorem render_mode_by_docType (ds : string) (chunk : IReferenceChunk) :
  all_digits ds = true → ds ≠ "" →
  default [] (reference env ≫= chunks) !! getChunkIndex ds = Some chunk →
  ∃ onClick,
    renderReference env [RText (marker_text ds)] =
      [RText "";
       if showImage env (doc_type chunk) then RImage (image_id chunk) onClick
       else RPopover (getPopoverContent env (getChunkIndex ds));
       RText ""] ∧
    (showImage env (Some "image") = true →
     doc_type chunk = Some "image" → image_id chunk = Some "img1" →
     renderReference env [RText (marker_text ds)] =
       [RText ""; RImage (Some "img1") onClick; RText ""]).
Proof.
  intros Hd Hne Hchunk.
  rewrite (renderReference_marker _ Hd Hne). unfold renderMarker. cbv zeta.
  assert (chunkItem (getReferenceInfo env (getChunkIndex ds)) = Some chunk) as Hitem by done.
  assert (imageId (getReferenceInfo env (getChunkIndex ds)) = image_id chunk) as Himage.
  { unfold getReferenceInfo. simpl. by rewrite Hchunk. }
  rewrite Hitem, Himage. simpl.
  eexists. split; [reflexivity|].
  intros Himg Htype Hid. by rewrite Htype, Himg, Hid.
Qed.

(** C7 — orphan chunk.  When no document aggregate has the chunk's
    document id, the popover of the chunk shows the sanitized chunk text
    (and the chunk's image, if it has one) and no document link: no name,
    no thumbnail, nothing to click. *)
Theorem orphan_chunk_popover (chunkIndex : nat) (chunk : IReferenceChunk) :
  default [] (reference env ≫= chunks) !! chunkIndex = Some chunk →
  (∀ aggs : list Docagg,
     (reference env ≫= doc_aggs) = Some aggs → document_id chunk ∉ doc_id <$> aggs) →
  document (getReferenceInfo env chunkIndex) = None ∧
  getPopoverContent env chunkIndex =
    {| pop_image := if truthy (image_id chunk) then image_id chunk else None;
       pop_html := sanitize env (default "" (content chunk));
       pop_link := None |}.
Proof.
  intros Hchunk Horphan.
  assert (document (getReferenceInfo env chunkIndex) = None) as Hdoc.
  { unfold getReferenceInfo. simpl. rewrite Hchunk.
    destruct (reference env ≫= doc_aggs) as [aggs|] eqn:Haggs; [|done].
    simpl. apply find_orphan. by apply Horphan. }
  split; [done|].
  unfold getPopoverContent. unfold getReferenceInfo in *. simpl in *.
  rewrite Hdoc, Hchunk. done.
Qed.

(** C8 (amended) — activating a document link.  For a cited chunk whose
    document is found: when the file extension is not pdf, the click opens
    the document's url in a new window if there is one and does nothing if
    there is none; when the extension is pdf, the click calls
    [clickDocumentButton] with the document id and the chunk, if the
    callback was passed. *)
Theorem document_link_click (chunkIndex : nat) (chunk : IReferenceChunk) (doc : Docagg) :
  default [] (reference env ≫= chunks) !! chunkIndex = Some chunk →
  document (getReferenceInfo env chunkIndex) = Some doc →
  doc_id doc ≠ "" →
  ∃ link,
    pop_link (getPopoverContent env chunkIndex) = Some link ∧
    link_onClick link =
      if String.eqb (getExtension env (Some (doc_name doc))) "pdf" then
        if clickDocumentButton env then ClickDocumentButton (doc_id doc) (Some chunk)
        else NoEffect
      else
        if truthy (url doc) then WindowOpen (default "" (url doc)) "_blank"
        else NoEffect.
Proof.
  intros Hchunk Hdoc Hid.
  assert (truthy (Some (doc_id doc)) = true) as Htruthy.
  { simpl. by rewrite (proj2 (String.eqb_neq _ _) Hid). }
  unfold getPopoverContent. unfold getReferenceInfo in *. simpl in *.
  rewrite Hdoc, Hchunk. simpl. rewrite Htruthy.
  eexists. split; [reflexivity|]. simpl.
  unfold handleDocumentButtonClick.
  destruct (String.eqb _ "pdf"); simpl; [done|].
  by destruct (truthy (url doc)).
Qed.

(** C10 — the placeholder for an empty answer.  On the empty text the
    component normalizes the translation of 'chat.searching' in its place; on
    any other text it normalizes the text itself.  The result for the empty
    text is not empty when the translation is not and the passes keep a
    non-empty text non-empty. *)
Theorem searching_placeholder (content : string) :
  (content = "" →
   contentWithCursor env content = normalize env (t env "chat.searching")) ∧
  (content ≠ "" → contentWithCursor env content = normalize env content) ∧
  (content = "" → t env "chat.searching" ≠ "" →
   (∀ x, x ≠ "" → normalize env x ≠ "") →
   contentWithCursor env content ≠ "").
Proof.
  unfold contentWithCursor, normalize. repeat split.
  - by intros ->.
  - intros Hne. by rewrite (proj2 (String.eqb_neq _ _) Hne).
  - intros -> Ht Hkeep. simpl. by apply Hkeep.
Qed.

(** C1 (amended) — the chunk content of a popover is sanitized.  The chunk
    text given to the popover as HTML is the output of the sanitizer on the
    chunk's content, so it holds no executable markup whenever no output of
    the sanitizer does. *)
Theorem popover_html_sanitized (executable : string → bool) (chunkIndex : nat) :
  (∀ s, executable (sanitize env s) = false) →
  pop_html (getPopoverContent env chunkIndex) =
    sanitize env (default "" (chunkItem (getReferenceInfo env chunkIndex) ≫= content)) ∧
  executable (pop_html (getPopoverContent env chunkIndex)) = false.
Proof.
  intros Hclean. split; [done|apply Hclean].
Qed.

End Properties.

(** ** The claims on the scenario *)

Lemma contains_cons p c s :
  contains p (String c s) =
  match strip_prefix p (String c s) with
  | Some _ => true
  | None => contains p s
  end.
Proof. reflexivity. Qed.

Lemma strip_markup_cons c s :
  Scenario.strip_markup (String c s) =
  if Ascii.eqb c "<" then Scenario.strip_markup s
  else String c (Scenario.strip_markup s).
Proof. reflexivity. Qed.

(** The scenario's sanitizer keeps its contract: no output holds a script tag. *)
Lemma strip_markup_clean s : Scenario.has_script (Scenario.strip_markup s) = false.
Proof.
  unfold Scenario.has_script. induction s as [|c s IH]; [done|].
  rewrite strip_markup_cons.
  destruct (Ascii.eqb_spec c "<") as [->|Hc]; [done|].
  rewrite contains_cons, IH.
  change (strip_prefix "<script" (String c (Scenario.strip_markup s)))
    with (if Ascii.eqb "<" c then strip_prefix "script" (Scenario.strip_markup s) else None).
  by destruct (Ascii.eqb_spec "<" c) as [<-|].
Qed.

Lemma popover_html_sanitized_witness :
  pop_html (getPopoverContent Scenario.env 1) = "script>alert(1)/script>text" ∧
  Scenario.has_script (pop_html (getPopoverContent Scenario.env 1)) = false.
Proof.
  exact (popover_html_sanitized Scenario.env Scenario.has_script 1 strip_markup_clean).
Defined.

(** The raw answer reaches the markdown renderer with its script tag, in the
    text and as a raw-HTML span of the tree. *)
Lemma raw_answer_not_sanitized :
  Scenario.has_script (contentWithCursor Scenario.env "<script>alert(1)</script>") = true ∧
  render Scenario.env (Root [Raw "<script>alert(1)</script>"]) =
  Some (RFragment [RRaw "<script>alert(1)</script>"]).
Proof. split; reflexivity. Qed.

Lemma out_of_range_marker_is_inert_witness :
  3 ≤ getChunkIndex "7" ∧
  renderReference Scenario.env [RText "⟦7⟧"] =
  [RText ""; RPopover {| pop_image := None; pop_html := ""; pop_link := None |}; RText ""].
Proof.
  assert (3 ≤ getChunkIndex "7") as Hlen by (vm_compute; lia).
  split; [exact Hlen|].
  exact (proj1 (proj2 (proj2
    (out_of_range_marker_is_inert Scenario.env "7" eq_refl
       ltac:(discriminate) Hlen)))).
Defined.



(** A marker between the raw tags of an inline HTML code region: its text
    node lies under the paragraph, so the pass wraps it and the marker is
    drawn as a citation, in a tree whose code and wrapper elements are
    literal. *)
Lemma raw_code_marker_is_annotated :
  regions_literal
    (Root [Element "p" [] [Raw "<code>"; Text "⟦1⟧"; Raw "</code>"]]) = true ∧
  wrapTextTransform
    (Root [Element "p" [] [Raw "<code>"; Text "⟦1⟧"; Raw "</code>"]]) =
  Some (Root [Element "p" []
                [Raw "<code>"; Element "custom-typography" [] [Text "⟦1⟧"];
                 Raw "</code>"]]) ∧
  citations <$>
    render Scenario.env
      (Root [Element "p" [] [Raw "<code>"; Text "⟦1⟧"; Raw "</code>"]]) =
  Some [RPopover {| pop_image := None; pop_html := "script>alert(1)/script>text";
                    pop_link := None |}].
Proof. repeat split; reflexivity. Qed.

Lemma text_skipped_by_parent_witness :
  node_at [0; 0; 0]
    (Root [Element "pre" [] [Element "code" [] [Text "⟦1⟧"]];
           Element "custom-typography" [] [Text "⟦0⟧"]]) = Some (Text "⟦1⟧") ∧
  citations (toReact Scenario.env (Element "code" [] [Text "⟦1⟧"])) = [].
Proof.
  destruct (text_skipped_by_parent Scenario.env
              (Root [Element "pre" [] [Element "code" [] [Text "⟦1⟧"]]; Text "⟦0⟧"])
              (Root [Element "pre" [] [Element "code" [] [Text "⟦1⟧"]];
                     Element "custom-typography" [] [Text "⟦0⟧"]])
              [0; 0] [0] (Element "code" [] [Text "⟦1⟧"]) "⟦1⟧"
              eq_refl eq_refl (or_introl eq_refl) eq_refl (or_intror eq_refl))
    as [Hkept Hdrawn].
  split; [exact Hkept|exact (proj2 (Hdrawn eq_refl eq_refl))].
Defined.

(** A marker whose index is past the chunks is not kept as literal text. *)
Lemma invalid_marker_not_kept :
  length (default [] (reference Scenario.env ≫= chunks)) ≤ getChunkIndex "7" ∧
  renderReference Scenario.env [RText "see ⟦7⟧."] =
  [RText "see ";
   RPopover {| pop_image := None; pop_html := ""; pop_link := None |};
   RText "."].
Proof. split; [vm_compute; lia|reflexivity]. Qed.

Lemma invalid_marker_replaced_witness :
  renderReference Scenario.env [RText "see ⟦7⟧."] ≫= citations =
  [RPopover {| pop_image := None; pop_html := ""; pop_link := None |}] ∧
  Forall (λ p, occurrences p = [])
    (renderReference Scenario.env [RText "see ⟦7⟧."] ≫= texts_outside_code).
Proof.
  destruct (invalid_marker_replaced Scenario.env "see ⟦7⟧." "7")
    as (_ & _ & Hcit & Htexts).
  - vm_compute. apply list_elem_of_here.
  - vm_compute. lia.
  - split; [exact Hcit|exact Htexts].
Defined.

Lemma render_mode_by_docType_witness :
  ∃ onClick,
    renderReference Scenario.env [RText "⟦0⟧"] =
    [RText ""; RImage (Some "img1") onClick; RText ""].
Proof.
  destruct (render_mode_by_docType Scenario.env "0" Scenario.chunk0
              eq_refl ltac:(discriminate) eq_refl)
    as (onClick & _ & Himage).
  exists onClick. exact (Himage eq_refl eq_refl eq_refl).
Defined.

Lemma orphan_chunk_popover_witness :
  getPopoverContent Scenario.env 1 =
  {| pop_image := None; pop_html := "script>alert(1)/script>text"; pop_link := None |}.
Proof.
  refine (proj2 (orphan_chunk_popover Scenario.env 1 Scenario.chunk1 eq_refl _)).
  intros aggs [= <-]. apply (bool_decide_eq_true_1 _). vm_compute. reflexivity.
Defined.

(** A document without url whose extension is not pdf: the click does
    nothing, the callback is not called. *)
Lemma no_url_click_does_nothing :
  url Scenario.doc2 = None ∧
  clickDocumentButton Scenario.env = true ∧
  link_onClick <$> pop_link (getPopoverContent Scenario.env 2) = Some NoEffect.
Proof. repeat split; reflexivity. Qed.

Lemma document_link_click_witness :
  ∃ link,
    pop_link (getPopoverContent Scenario.env 0) = Some link ∧
    link_onClick link = ClickDocumentButton "d0" (Some Scenario.chunk0).
Proof.
  exact (document_link_click Scenario.env 0 Scenario.chunk0 Scenario.doc0
           eq_refl eq_refl ltac:(discriminate)).
Defined.

Lemma searching_placeholder_witness :
  contentWithCursor Scenario.env "" = "Searching..." ∧
  contentWithCursor Scenario.env "hello" = "hello" ∧
  contentWithCursor Scenario.env "" ≠ "".
Proof.
  pose proof (searching_placeholder Scenario.env "") as (Hempty & _ & Hfilled).
  pose proof (searching_placeholder Scenario.env "hello") as (_ & Hother & _).
  split; [exact (Hempty eq_refl)|]. split.
  - apply Hother. discriminate.
  - apply Hfilled; [reflexivity|discriminate|]. intros x Hx. exact Hx.
Defined.

(** * Further properties *)

(** ** The tree pass *)

Lemma wraps_tagName parent parent' :
  tagName_of parent = tagName_of parent' → wraps parent = wraps parent'.
Proof. intros H. unfold wraps. by rewrite H. Qed.

Lemma visitParents_text_None ancestors value :
  last ancestors = None → visitParents ancestors (Text value) = None.
Proof. intros H. simpl. unfold wrapText. by rewrite H. Qed.

Lemma visitParents_not_text ancestors node node' :
  visitParents ancestors node = Some node' →
  is_text node = false → is_text node' = false.
Proof.
  intros Hv Htext. destruct node as [children|tag props children|value|html]; try done.
  - by apply visitParents_root in Hv as (? & -> & _).
  - by apply visitParents_element in Hv as (? & -> & _).
  - simpl in Hv. by simplify_eq.
Qed.

(** X1 — the pass raises its error exactly on a bare text.  The pass
    returns no tree (the TypeError of reading [tagName] of a missing
    ancestor) if and only if the tree given to it is itself a text node. *)
Theorem wrapTextTransform_fails_on_text_only (tree : hast) :
  wrapTextTransform tree = None ↔ is_text tree = true.
Proof.
  split.
  - intros Hnone. destruct (is_text tree) eqn:Htext; [done|].
    destruct (visitParents_total tree [] (or_intror Htext)) as [tree' Hsome].
    unfold wrapTextTransform in Hnone. congruence.
  - destruct tree; try done.
Qed.

Lemma settled_children ancestors ancestors' parent parent' children children' :
  tagName_of parent = tagName_of parent' →
  Forall settled children →
  Forall2 (λ c c', visitParents (ancestors ++ [parent]) c = Some c') children children' →
  mapM (visitParents (ancestors' ++ [parent'])) children' = Some children'.
Proof.
  intros Htag Hsettled Hall. apply mapM_Some_2.
  induction Hall as [|c c' children children' Hc Hall IH]; [constructor|].
  apply Forall_cons in Hsettled as [Hs Hsettled].
  constructor; [|by apply IH].
  apply (Hs _ _ _ Hc). rewrite !last_snoc. simpl. by rewrite Htag.
Qed.

Lemma settled_all node : settled node.
Proof.
  induction node as [children IH|tag props children IH|value|html] using hast_ind;
    intros ancestors ancestors' node' Hv Hlast.
  - apply visitParents_root in Hv as (children' & -> & Hall). simpl.
    by rewrite (settled_children ancestors ancestors' (Root children) (Root children')
                  _ _ eq_refl IH Hall).
  - apply visitParents_element in Hv as (children' & -> & Hall). simpl.
    by rewrite (settled_children ancestors ancestors' (Element tag props children)
                  (Element tag props children') _ _ eq_refl IH Hall).
  - destruct (last ancestors) as [parent|] eqn:Hl;
      [|by rewrite (visitParents_text_None _ _ Hl) in Hv].
    destruct (last ancestors') as [parent'|] eqn:Hl'; [|by simpl in Hlast].
    simpl in Hlast. injection Hlast as Htag.
    rewrite (visitParents_text _ _ _ Hl) in Hv.
    rewrite (wraps_tagName _ _ Htag) in Hv.
    destruct (wraps parent') eqn:Hw; simplify_eq.
    + simpl. by rewrite wrapText_fresh.
    + by rewrite (visitParents_text _ _ _ Hl'), Hw.
  - simpl in Hv. by simplify_eq.
Qed.

(** X2 — the pass is idempotent.  A second run of the pass on its own
    result returns that result: the wrappers it made guard their text. *)
Theorem wrapTextTransform_idempotent (tree tree' : hast) :
  wrapTextTransform tree = Some tree' → wrapTextTransform tree' = Some tree'.
Proof. intros Hw. by apply (settled_all tree [] [] tree' Hw). Qed.

Lemma text_values_children ancestors children children' :
  Forall (λ node, ∀ anc node',
            visitParents anc node = Some node' → text_values node' = text_values node)
    children →
  Forall2 (λ c c', visitParents ancestors c = Some c') children children' →
  children' ≫= text_values = children ≫= text_values.
Proof.
  intros Hkeep Hall.
  induction Hall as [|c c' children children' Hc Hall IH]; [done|].
  apply Forall_cons in Hkeep as [Hk Hkeep].
  by rewrite !bind_cons, (Hk _ _ Hc), IH.
Qed.

Lemma visitParents_text_values node : ∀ ancestors node',
  visitParents ancestors node = Some node' → text_values node' = text_values node.
Proof.
  induction node as [children IH|tag props children IH|value|html] using hast_ind;
    intros ancestors node' Hv.
  - apply visitParents_root in Hv as (children' & -> & Hall). simpl.
    by eapply text_values_children.
  - apply visitParents_element in Hv as (children' & -> & Hall). simpl.
    by eapply text_values_children.
  - destruct (last ancestors) as [parent|] eqn:Hl;
      [|by rewrite (visitParents_text_None _ _ Hl) in Hv].
    rewrite (visitParents_text _ _ _ Hl) in Hv.
    by destruct (wraps parent); simplify_eq.
  - simpl in Hv. by simplify_eq.
Qed.

(** X3 — the pass keeps the text.  The values of the text nodes of the
    result, in document order, are those of the tree given: no text is
    dropped, changed, repeated or moved. *)
Theorem wrapTextTransform_keeps_text (tree tree' : hast) :
  wrapTextTransform tree = Some tree' → text_values tree' = text_values tree.
Proof. apply visitParents_text_values. Qed.

Lemma texts_guarded_children ancestors parent parent' children children' :
  tagName_of parent = tagName_of parent' →
  Forall (λ node, ∀ anc node',
            visitParents anc node = Some node' → is_text node = false →
            texts_guarded node' = true) children →
  Forall2 (λ c c', visitParents (ancestors ++ [parent]) c = Some c') children children' →
  forallb (λ c, if is_text c then negb (wraps parent') else texts_guarded c) children' = true.
Proof.
  intros Htag Hguard Hall.
  induction Hall as [|c c' children children' Hc Hall IH]; [done|].
  apply Forall_cons in Hguard as [Hg Hguard].
  simpl. rewrite (IH Hguard), andb_true_r.
  destruct (is_text c) eqn:Htext.
  - destruct c as [| |value|]; try done.
    rewrite (visitParents_text _ _ _ (last_snoc _ _)) in Hc.
    rewrite (wraps_tagName _ _ Htag) in Hc.
    destruct (wraps parent') eqn:Hw; simplify_eq; [|done].
    change (negb (wraps (Element custom_typography [] [Text value])) && true = true).
    by rewrite (wraps_custom_typography (Element custom_typography [] [Text value])).
  - rewrite (visitParents_not_text _ _ _ Hc Htext). by apply (Hg _ _ Hc).
Qed.

Lemma visitParents_texts_guarded node : ∀ ancestors node',
  visitParents ancestors node = Some node' → is_text node = false →
  texts_guarded node' = true.
Proof.
  induction node as [children IH|tag props children IH|value|html] using hast_ind;
    intros ancestors node' Hv Htext; try done.
  - apply visitParents_root in Hv as (children' & -> & Hall).
    exact (texts_guarded_children ancestors (Root children) (Root children')
             children children' eq_refl IH Hall).
  - apply visitParents_element in Hv as (children' & -> & Hall).
    exact (texts_guarded_children ancestors (Element tag props children)
             (Element tag props children') children children' eq_refl IH Hall).
  - simpl in Hv. by simplify_eq.
Qed.

(** X4 — what the pass establishes.  On a root the pass returns a tree in
    which every text node lies directly under a custom-typography or a code
    element: no text is left that [renderReference] would not see or that
    is not code. *)
Theorem wrapTextTransform_guards_texts (children : list hast) :
  ∃ tree', wrapTextTransform (Root children) = Some tree' ∧ texts_guarded tree' = true.
Proof.
  destruct (wrapTextTransform_root children) as [tree' Hw].
  exists tree'. split; [done|]. by apply (visitParents_texts_guarded _ _ _ Hw).
Qed.

(** ** Texts without marker, and what a split keeps *)

Lemma occurrences_nil_cons c s :
  occurrences (String c s) = [] → currentReg (String c s) = None ∧ occurrences s = [].
Proof.
  rewrite occurrences_cons.
  by destruct (currentReg (String c s)) as [[ds rest]|].
Qed.

Lemma split_fuel_no_marker n : ∀ s piece,
  String.length s ≤ n → occurrences s = [] →
  split_fuel n s piece = [Lit (piece +:+ s)].
Proof.
  induction n as [|n IH]; intros s piece Hn Hocc; [done|].
  destruct s as [|c s]; [simpl; by rewrite app_empty_r|].
  apply occurrences_nil_cons in Hocc as [Hc Hocc].
  rewrite split_fuel_S, Hc. simpl in Hn.
  rewrite IH by (lia || done). by rewrite app_assoc_str.
Qed.

Lemma split_no_marker s : occurrences s = [] → split s = [Lit s].
Proof. intros Hocc. unfold split. by rewrite split_fuel_no_marker. Qed.

Lemma split_fuel_length n : ∀ s piece,
  String.length s ≤ n →
  length (split_fuel n s piece) = 2 * length (occurrences s) + 1.
Proof.
  induction n as [|n IH]; intros s piece Hn.
  - by destruct s; [|simpl in Hn; lia].
  - destruct s as [|c s]; [done|]. rewrite split_fuel_S.
    destruct (currentReg (String c s)) as [[ds rest]|] eqn:Hm.
    + rewrite (occurrences_match _ _ _ _ Hm).
      apply currentReg_shorter in Hm. simpl in Hm, Hn.
      simpl. rewrite IH by lia. lia.
    + rewrite occurrences_cons, Hm. apply IH. simpl in Hn. lia.
Qed.

Lemma split_fuel_alternates n : ∀ s piece i,
  String.length s ≤ n →
  split_fuel n s piece !! (2 * i + 1) = Cap <$> occurrences s !! i ∧
  (i ≤ length (occurrences s) → ∃ p, split_fuel n s piece !! (2 * i) = Some (Lit p)).
Proof.
  induction n as [|n IH]; intros s piece i Hn.
  - destruct s; [|simpl in Hn; lia]. simpl. split.
    + by replace (i + (i + 0) + 1) with (S (i + i)) by lia.
    + intros Hi. replace (i + (i + 0)) with 0 by lia. by eexists.
  - destruct s as [|c s].
    { simpl. split.
      + by replace (i + (i + 0) + 1) with (S (i + i)) by lia.
      + intros Hi. replace (i + (i + 0)) with 0 by lia. by eexists. }
    rewrite split_fuel_S.
    destruct (currentReg (String c s)) as [[ds rest]|] eqn:Hm.
    + rewrite (occurrences_match _ _ _ _ Hm).
      apply currentReg_shorter in Hm. simpl in Hm, Hn.
      destruct i as [|j].
      * split; [done|]. intros _. by eexists.
      * replace (2 * S j + 1) with (S (S (2 * j + 1))) by lia.
        replace (2 * S j) with (S (S (2 * j))) by lia.
        destruct (IH rest "" j ltac:(lia)) as [Hodd Heven].
        split; [exact Hodd|]. intros Hi. apply Heven. simpl in Hi. lia.
    + rewrite occurrences_cons, Hm. apply IH. simpl in Hn. lia.
Qed.

Section MoreProperties.

Context (env : Env).

(** X5 — children without marker are drawn as they are.  When no text
    among the children holds a marker (the empty text holds none),
    [renderReference] returns the children unchanged. *)
Theorem renderReference_without_marker (children : list rnode) :
  (∀ s, RText s ∈ children → occurrences s = []) →
  renderReference env children = children.
Proof.
  induction children as [|x children IH]; intros Hclean; [done|].
  rewrite renderReference_cons, IH by (intros s Hs; apply Hclean; by right).
  destruct x as [s| | | | | |]; try done.
  unfold replaceString. rewrite split_no_marker; [done|].
  apply Hclean. by left.
Qed.

(** X6 — texts and citations alternate.  [renderReference] on a text with
    k markers gives 2k+1 nodes: the node at the odd place 2i+1 is the
    citation drawn for the i-th marker of the text, and the node at each even
    place is a text (the empty one between two adjacent markers, and before
    a marker at the start or after one at the end). *)
Theorem renderReference_alternates (s : string) (i : nat) :
  length (renderReference env [RText s]) = 2 * length (occurrences s) + 1 ∧
  renderReference env [RText s] !! (2 * i + 1) =
    renderMarker env <$> occurrences s !! i ∧
  (i ≤ length (occurrences s) →
   ∃ p, renderReference env [RText s] !! (2 * i) = Some (RText p)).
Proof.
  rewrite renderReference_cons, app_nil_r. unfold replaceString, split.
  destruct (split_fuel_alternates (String.length s) s "" i (le_n _)) as [Hodd Heven].
  split; [|split].
  - rewrite length_fmap. by apply split_fuel_length.
  - rewrite list_lookup_fmap, Hodd. by destruct (occurrences s !! i).
  - intros Hi. destruct (Heven Hi) as [p Hp]. exists p.
    by rewrite list_lookup_fmap, Hp.
Qed.

End MoreProperties.

(** ** The lookup, the link and the clicks *)

Section Lookup.

Context (env : Env).

Lemma document_found chunkIndex doc :
  document (getReferenceInfo env chunkIndex) = Some doc →
  ∃ chunk aggs,
    default [] (reference env ≫= chunks) !! chunkIndex = Some chunk ∧
    reference env ≫= doc_aggs = Some aggs ∧
    doc ∈ aggs ∧ doc_id doc = document_id chunk.
Proof.
  unfold getReferenceInfo. simpl.
  destruct (reference env ≫= doc_aggs) as [aggs|]; [simpl|done].
  intros Hfind. apply find_some in Hfind as [Hin Heq].
  apply bool_decide_eq_true_1 in Heq.
  destruct (default [] (reference env ≫= chunks) !! chunkIndex) as [chunk|]; [|done].
  exists chunk, aggs. repeat split; [by apply list_elem_of_In|].
  simpl in Heq. congruence.
Qed.

Lemma documentId_document chunkIndex :
  documentId (getReferenceInfo env chunkIndex) =
  doc_id <$> document (getReferenceInfo env chunkIndex).
Proof. reflexivity. Qed.

Lemma pop_link_unfold chunkIndex :
  pop_link (getPopoverContent env chunkIndex) =
  let info := getReferenceInfo env chunkIndex in
  if truthy (doc_id <$> document info) then
    Some {| link_thumbnail :=
              if truthy_member (fileThumbnail info)
              then ImgSrc (default (Own "") (fileThumbnail info))
              else SvgIcon ("file-icon/" +:+ fileExtension info);
            link_onClick :=
              handleDocumentButtonClick env (default "" (doc_id <$> document info))
                (chunkItem info)
                (String.eqb (fileExtension info) "pdf")
                (documentUrl info);
            link_label := doc_name <$> document info |}
  else None.
Proof. reflexivity. Qed.

Lemma truthy_Some s : truthy (Some s) = true ↔ s ≠ "".
Proof.
  simpl. rewrite negb_true_iff. split.
  - intros H. by apply String.eqb_neq.
  - intros H. by apply String.eqb_neq.
Qed.

Lemma renderMarker_click ds :
  click_of (renderMarker env ds) =
  let info := getReferenceInfo env (getChunkIndex ds) in
  if truthy (doc_id <$> document info) then
    handleDocumentButtonClick env (default "" (doc_id <$> document info))
      (chunkItem info)
      (String.eqb (fileExtension info) "pdf")
      (documentUrl info)
  else NoEffect.
Proof.
  unfold renderMarker. cbv zeta.
  destruct (showImage env _).
  - reflexivity.
  - transitivity
      (match pop_link (getPopoverContent env (getChunkIndex ds)) with
       | Some link => link_onClick link
       | None => NoEffect
       end); [reflexivity|].
    rewrite pop_link_unfold. cbv zeta.
    generalize (getReferenceInfo env (getChunkIndex ds)). intros info.
    by destruct (truthy (doc_id <$> document info)).
Qed.

(** X8 — when a popover shows a document link.  The popover of an index
    has a link if and only if a chunk stands at the index, the lookup finds
    a document aggregate, that aggregate has the chunk's document id, and
    the id is not the empty string. *)
Theorem link_shown_iff (chunkIndex : nat) :
  is_Some (pop_link (getPopoverContent env chunkIndex)) ↔
  ∃ chunk doc,
    default [] (reference env ≫= chunks) !! chunkIndex = Some chunk ∧
    document (getReferenceInfo env chunkIndex) = Some doc ∧
    doc_id doc = document_id chunk ∧ doc_id doc ≠ "".
Proof.
  rewrite pop_link_unfold. cbv zeta.
  destruct (document (getReferenceInfo env chunkIndex)) as [doc|] eqn:Hdoc; simpl.
  - destruct (document_found _ _ Hdoc) as (chunk & aggs & Hchunk & _ & _ & Hid).
    destruct (String.eqb_spec (doc_id doc) "") as [He|Hne]; simpl.
    + split; [by intros []|]. intros (? & ? & _ & ? & _ & Hne). by simplify_eq.
    + split; [|by eexists]. intros _. by exists chunk, doc.
  - split; [by intros []|]. by intros (? & ? & _ & ? & _).
Qed.

(** X9 — the document of a lookup had its thumbnail requested.  Every
    document aggregate that [getReferenceInfo] finds, at whatever index, has
    its id among the ids that the effect on [reference] hands to
    [setDocumentIds]. *)
Theorem found_document_is_requested (chunkIndex : nat) (doc : Docagg) :
  document (getReferenceInfo env chunkIndex) = Some doc →
  doc_id doc ∈ documentIds env.
Proof.
  intros Hdoc. destruct (document_found _ _ Hdoc) as (chunk & aggs & _ & Haggs & Hin & _).
  unfold documentIds. rewrite Haggs. by apply list_elem_of_fmap_2.
Qed.

(** X10 — the first aggregate wins.  When several aggregates carry the
    document id of the chunk, the lookup returns the first of them in the
    order of [doc_aggs]. *)
Theorem first_aggregate_wins (chunkIndex : nat) (chunk : IReferenceChunk)
    (pre post : list Docagg) (doc : Docagg) :
  default [] (reference env ≫= chunks) !! chunkIndex = Some chunk →
  reference env ≫= doc_aggs = Some (pre ++ doc :: post) →
  doc_id doc = document_id chunk →
  document_id chunk ∉ doc_id <$> pre →
  document (getReferenceInfo env chunkIndex) = Some doc.
Proof.
  intros Hchunk Haggs Hid Hpre. unfold getReferenceInfo. simpl.
  rewrite Haggs, Hchunk. simpl. clear Haggs.
  induction pre as [|d pre IH]; simpl.
  - rewrite bool_decide_eq_true_2; [done|by rewrite Hid].
  - rewrite bool_decide_eq_false_2.
    + apply IH. intros Hin. apply Hpre. rewrite fmap_cons. by right.
    + intros Heq. apply Hpre. rewrite fmap_cons. simplify_eq.
      rewrite <-Heq. by left.
Qed.

(** X11 — an image citation and the link of the popover act alike.  The
    click of the node drawn for a marker is the click of the document link
    of the popover of its index, and no action when that popover has no
    link, whether the marker is drawn as an image or as a popover. *)
Theorem image_click_is_link_click (ds : string) :
  click_of (renderMarker env ds) =
  match pop_link (getPopoverContent env (getChunkIndex ds)) with
  | Some link => link_onClick link
  | None => NoEffect
  end.
Proof.
  rewrite renderMarker_click, pop_link_unfold. cbv zeta.
  generalize (getReferenceInfo env (getChunkIndex ds)). intros info.
  by destruct (truthy (doc_id <$> document info)).
Qed.

(** X12 — what a click can do.  A click on a citation opens a window only
    on the non-empty url of the document found for the chunk, in a new tab,
    and only when the extension of the document is not [pdf]; it calls
    [clickDocumentButton] only when the prop was passed and the extension is
    [pdf], with the id of the document found and the chunk at the index,
    which is then defined and carries that document id. *)
Theorem click_effects_are_sound (ds : string) :
  let info := getReferenceInfo env (getChunkIndex ds) in
  match click_of (renderMarker env ds) with
  | NoEffect => True
  | WindowOpen u target =>
      target = "_blank" ∧ u ≠ "" ∧ fileExtension info ≠ "pdf" ∧
      ∃ doc, document info = Some doc ∧ url doc = Some u
  | ClickDocumentButton d c =>
      clickDocumentButton env = true ∧ fileExtension info = "pdf" ∧
      ∃ chunk doc,
        c = Some chunk ∧
        default [] (reference env ≫= chunks) !! getChunkIndex ds = Some chunk ∧
        document info = Some doc ∧ d = doc_id doc ∧ document_id chunk = d
  end.
Proof.
  intros info. rewrite renderMarker_click. cbv zeta. fold info.
  assert (documentUrl info = document info ≫= url) as Hurl by reflexivity.
  assert (chunkItem info = default [] (reference env ≫= chunks) !! getChunkIndex ds)
    as Hitem by reflexivity.
  pose proof (document_found (getChunkIndex ds)) as Hfound. fold info in Hfound.
  clearbody info.
  destruct (document info) as [doc|] eqn:Hdoc; simpl; [|done].
  destruct (Hfound _ eq_refl) as (chunk & aggs & Hchunk & _ & _ & Hid).
  destruct (String.eqb (doc_id doc) ""); simpl; [done|].
  unfold handleDocumentButtonClick. rewrite Hurl, Hitem, Hchunk. simpl.
  destruct (String.eqb_spec (fileExtension info) "pdf") as [Hpdf|Hpdf]; simpl.
  - destruct (clickDocumentButton env) eqn:Hprop; [|done].
    repeat split; [done|]. exists chunk, doc. by rewrite Hid.
  - destruct (url doc) as [u|] eqn:Hurl'; simpl; [|done].
    destruct (String.eqb_spec u "") as [->|Hu]; simpl; [done|].
    split; [done|]. split; [exact Hu|]. split; [exact Hpdf|]. by exists doc.
Qed.

(** X13 — what the document link shows.  When the lookup finds a document
    with a non-empty id, the link of the popover is labelled with that
    document's name.  Its thumbnail is an image of the string fetched under
    the document's id when that string is not empty, and the file icon named
    after the extension of the document's name when it is empty.  When
    nothing was fetched under the id, it is that file icon too, unless the id
    names a member of [Object.prototype]: the property read finds that
    member, which is truthy, and an image is drawn with it as source. *)
Theorem document_link_shows (chunkIndex : nat) (doc : Docagg) :
  document (getReferenceInfo env chunkIndex) = Some doc →
  doc_id doc ≠ "" →
  ∃ link,
    pop_link (getPopoverContent env chunkIndex) = Some link ∧
    link_label link = Some (doc_name doc) ∧
    link_thumbnail link =
      match fileThumbnails env !! doc_id doc with
      | Some src =>
          if String.eqb src "" then
            SvgIcon ("file-icon/" +:+ getExtension env (Some (doc_name doc)))
          else ImgSrc (Own src)
      | None =>
          if bool_decide (doc_id doc ∈ prototype_keys) then
            ImgSrc (Inherited (doc_id doc))
          else SvgIcon ("file-icon/" +:+ getExtension env (Some (doc_name doc)))
      end.
Proof.
  intros Hdoc Hne. rewrite pop_link_unfold. cbv zeta.
  assert (fileThumbnail (getReferenceInfo env chunkIndex) =
          if truthy (doc_id <$> document (getReferenceInfo env chunkIndex))
          then read_property (fileThumbnails env)
                 (default "" (doc_id <$> document (getReferenceInfo env chunkIndex)))
          else Some (Own "")) as Hthumb by reflexivity.
  assert (fileExtension (getReferenceInfo env chunkIndex) =
          if truthy (doc_id <$> document (getReferenceInfo env chunkIndex))
          then getExtension env (doc_name <$> document (getReferenceInfo env chunkIndex))
          else "") as Hext by reflexivity.
  revert Hdoc Hthumb Hext.
  generalize (getReferenceInfo env chunkIndex). intros info Hdoc Hthumb Hext.
  rewrite Hthumb, Hext, Hdoc. simpl.
  rewrite (proj2 (String.eqb_neq _ _) Hne). simpl.
  eexists. split; [done|]. split; [done|]. simpl. unfold read_property.
  destruct (fileThumbnails env !! doc_id doc) as [src|]; simpl.
  - by destruct (String.eqb src "").
  - by destruct (bool_decide (doc_id doc ∈ prototype_keys)).
Qed.

End Lookup.

(** ** The [code] component *)

Lemma span_word_all w : all_word w = true → span_word w = w.
Proof.
  induction w as [|c w IH]; [done|]. simpl.
  intros [Hc Hw]%andb_true_iff. by rewrite Hc, IH.
Qed.

Lemma language_of_unfold cn :
  language_of cn =
  match
    match strip_prefix "language-" cn with
    | Some rest =>
        match span_word rest with
        | EmptyString => None
        | w => Some w
        end
    | None => None
    end
  with
  | Some w => Some w
  | None =>
      match cn with
      | String _ cn' => language_of cn'
      | EmptyString => None
      end
  end.
Proof. by destruct cn. Qed.

Lemma language_of_class w :
  all_word w = true → w ≠ "" → language_of ("language-" +:+ w) = Some w.
Proof.
  intros Hw Hne.
  rewrite language_of_unfold, strip_prefix_app, (span_word_all _ Hw).
  by destruct w.
Qed.

Lemma strip_final_newline_app v :
  strip_final_newline (v +:+ String "010" "") = v.
Proof.
  induction v as [|c v IH]; [done|].
  change (String c v +:+ String "010" "") with (String c (v +:+ String "010" "")).
  destruct v as [|c' v]; [by simpl|].
  change (strip_final_newline (String c (String c' v +:+ String "010" "")))
    with (String c (strip_final_newline (String c' v +:+ String "010" ""))).
  by rewrite IH.
Qed.

Section CodeBlocks.

Context (env : Env).

(** X14 — a fenced block goes to the highlighter as written.  A [code]
    element whose class is [language-w], for a non-empty word [w], and whose
    one child is a text ending in a newline, is left alone by the pass under
    any parent and drawn as highlighted code in language [w] with that text
    less its final newline: markers in it stay text. *)
Theorem fenced_code_is_highlighted (ancestors : list hast)
    (props : list (string * string)) (w v : string) :
  className props = "language-" +:+ w →
  all_word w = true → w ≠ "" →
  ∃ node',
    visitParents ancestors (Element code props [Text (v +:+ String "010" "")]) = Some node' ∧
    toReact env node' = RHighlighted w v ∧
    citations (toReact env node') = [].
Proof.
  intros Hclass Hw Hne.
  set (text := v +:+ String "010" "").
  set (element := Element code props [Text text]).
  exists element. split.
  - assert (visitParents (ancestors ++ [element]) (Text text) = Some (Text text)) as Hv.
    { rewrite (visitParents_text _ element _ (last_snoc _ _)).
      by rewrite (wraps_code element eq_refl). }
    change (visitParents ancestors element)
      with (Element code props <$> mapM (visitParents (ancestors ++ [element])) [Text text]).
    by rewrite (mapM_Some_2 _ [Text text] [Text text]) by (by constructor).
  - unfold element. rewrite toReact_code. unfold codeComponent.
    rewrite Hclass, (language_of_class _ Hw Hne).
    simpl stringify. unfold text. by rewrite strip_final_newline_app.
Qed.

End CodeBlocks.

(** ** The further properties on the reference table *)

Lemma wrapTextTransform_idempotent_witness :
  wrapTextTransform (Root [Element "p" [] [Text "see ⟦0⟧"]]) =
    Some (Root [Element "p" [] [Element "custom-typography" [] [Text "see ⟦0⟧"]]]) ∧
  wrapTextTransform
    (Root [Element "p" [] [Element "custom-typography" [] [Text "see ⟦0⟧"]]]) =
    Some (Root [Element "p" [] [Element "custom-typography" [] [Text "see ⟦0⟧"]]]).
Proof.
  split; [reflexivity|].
  exact (wrapTextTransform_idempotent
           (Root [Element "p" [] [Text "see ⟦0⟧"]])
           (Root [Element "p" [] [Element "custom-typography" [] [Text "see ⟦0⟧"]]])
           eq_refl).
Defined.

Lemma wrapTextTransform_keeps_text_witness :
  text_values
    (Root [Element "p" [] [Element "custom-typography" [] [Text "a"]];
           Element "code" [] [Text "b"]]) = ["a"; "b"].
Proof.
  exact (wrapTextTransform_keeps_text
           (Root [Element "p" [] [Text "a"]; Element "code" [] [Text "b"]])
           (Root [Element "p" [] [Element "custom-typography" [] [Text "a"]];
                  Element "code" [] [Text "b"]])
           eq_refl).
Defined.

Lemma renderReference_without_marker_witness :
  renderReference Scenario.env [RText "plain"; RElement "em" [RText "⟦0⟧"]] =
  [RText "plain"; RElement "em" [RText "⟦0⟧"]].
Proof.
  apply (renderReference_without_marker Scenario.env).
  intros s Hs. apply elem_of_cons in Hs as [Hs|Hs]; [by simplify_eq|].
  apply elem_of_cons in Hs as [Hs|Hs]; [by simplify_eq|].
  by apply elem_of_nil in Hs.
Defined.

Lemma found_document_is_requested_witness :
  "d0" ∈ documentIds Scenario.env.
Proof.
  exact (found_document_is_requested Scenario.env 0 Scenario.doc0 eq_refl).
Defined.

Lemma first_aggregate_wins_witness :
  doc_id Scenario.doc2 = document_id Scenario.chunk2 ∧
  doc_id Scenario.doc2_again = document_id Scenario.chunk2 ∧
  doc_name <$> document (getReferenceInfo Scenario.env_twice 2) = Some "notes.txt".
Proof.
  split; [reflexivity|]. split; [reflexivity|].
  rewrite (first_aggregate_wins Scenario.env_twice 2 Scenario.chunk2
             [Scenario.doc0] [Scenario.doc2_again; Scenario.doc_constructor]
             Scenario.doc2 eq_refl eq_refl eq_refl).
  - reflexivity.
  - apply (bool_decide_eq_true_1 _). vm_compute. reflexivity.
Defined.

Lemma document_link_shows_witness :
  (∃ link,
     pop_link (getPopoverContent Scenario.env_twice 0) = Some link ∧
     link_label link = Some "report.pdf" ∧
     link_thumbnail link = ImgSrc (Own "https://example.org/d0.png")) ∧
  (∃ link,
     pop_link (getPopoverContent Scenario.env_twice 2) = Some link ∧
     link_label link = Some "notes.txt" ∧
     link_thumbnail link = SvgIcon "file-icon/txt") ∧
  (∃ link,
     pop_link (getPopoverContent Scenario.env_twice 3) = Some link ∧
     link_label link = Some "plan.docx" ∧
     link_thumbnail link = ImgSrc (Inherited "constructor")).
Proof.
  split; [|split].
  - exact (document_link_shows Scenario.env_twice 0 Scenario.doc0
             eq_refl ltac:(discriminate)).
  - exact (document_link_shows Scenario.env_twice 2 Scenario.doc2
             eq_refl ltac:(discriminate)).
  - exact (document_link_shows Scenario.env_twice 3 Scenario.doc_constructor
             eq_refl ltac:(discriminate)).
Defined.

Lemma fenced_code_is_highlighted_witness :
  ∃ node',
    visitParents [Root []]
      (Element "code" [("className", "language-js")]
         [Text ("cite(⟦0⟧);" +:+ String "010" "")]) = Some node' ∧
    toReact Scenario.env node' = RHighlighted "js" "cite(⟦0⟧);" ∧
    citations (toReact Scenario.env node') = [].
Proof.
  exact (fenced_code_is_highlighted Scenario.env [Root []]
           [("className", "language-js")] "js" "cite(⟦0⟧);"
           eq_refl eq_refl ltac:(discriminate)).
Defined.
